(** * ADX matching engine: a shallow embedding of
      [src/pkg/dex/adx_matching_engine.cpp] and its properties.

    Conventions of the embedding.
    - [Price] is [int64_t], [Quantity], [SlotID], [OrderID] are [uint64_t]:
      all are carried as [Z], and every arithmetic result is brought back
      into its type with [to_int64] / [to_uint64] (two's complement
      wrap-around, which is what the usual arithmetic conversions give for
      the unsigned operations and what the target machine gives for the
      signed ones).
    - [steady_clock] time points are carried as [Z] counts of clock ticks
      (nanoseconds); [steady_clock::now()] is an explicit argument [now].
    - [std::unordered_map] is [gmap Z _]; [operator[]] inserts a
      value-initialised entry when the key is absent.
    - An integer division by zero is undefined behaviour: it is the outcome
      [DivByZero]; so is the signed division of [INT64_MIN] by [-1], the
      outcome [DivOverflow].  The [while] loop of the immediate matcher
      runs on fuel; [OutOfFuel] is shown never to happen.
    - [std::sort] and [thrust::sort] are library code: they are taken through
      the interface [Sorter], whose contract [SorterOk] is the one the C++
      standard gives (a permutation, ordered for the comparator; the order
      of equivalent elements is left open). *)

From Stdlib Require Import ZArith Lia Sorting.Sorted.
From stdpp Require Import base tactics option list sorting gmap strings pretty.

Local Open Scope Z_scope.

(** ** Machine integers *)

Definition to_uint64 (z : Z) : Z := z mod 2 ^ 64.
Definition to_int64 (z : Z) : Z := (z + 2 ^ 63) mod 2 ^ 64 - 2 ^ 63.
Definition to_uint32 (z : Z) : Z := z mod 2 ^ 32.

Definition max_int64 : Z := 2 ^ 63 - 1.
Definition min_int64 : Z := - 2 ^ 63.

Definition is_int64 (z : Z) : Prop := min_int64 <= z <= max_int64.
Definition is_uint64 (z : Z) : Prop := 0 <= z < 2 ^ 64.

(** ** Outcomes of an operation *)

Inductive result (A : Type) : Type :=
| Ok (a : A)
| DivByZero
| DivOverflow
| OutOfFuel.
Arguments Ok {A} a.
Arguments DivByZero {A}.
Arguments DivOverflow {A}.
Arguments OutOfFuel {A}.

Global Instance result_bind : MBind result := fun A B k r =>
  match r with
  | Ok a => k a
  | DivByZero => DivByZero
  | DivOverflow => DivOverflow
  | OutOfFuel => OutOfFuel
  end.

(** ** Time *)

Definition Time := Z.

(** [steady_clock::duration] counts nanoseconds. *)
Definition ticks_per_ms : Z := 1000000.

(** [duration_cast<milliseconds>(d).count()]: truncation toward zero. *)
Definition to_milliseconds (d : Z) : Z := Z.quot d ticks_per_ms.

(** ** Data model *)

Record AdSlot := mkAdSlot {
  slot_slot_id : Z;
  publisher : string;
  placement : string;
  slot_targeting_hash : Z;
  start_time : Time;
  end_time : Time;
  max_impressions : Z;
  delivered : Z;
  floor_cpm : Z;
  min_viewability : Z;
  active : bool
}.

Inductive OrderType := LIMIT | MARKET | COMMIT_REVEAL | AMM_SWAP | FLASH_COVER.

Record Order := mkOrder {
  order_id : Z;
  trader : string;
  slot_id : Z;
  type : OrderType;
  is_buy : bool;
  limit_price : Z;
  quantity : Z;
  created : Time;
  expires : Time;
  targeting_hash : Z;
  commit_hash : string;
  revealed : bool;
  revealed_price : Z
}.

Record AdMM_Pool := mkPool {
  pool_slot_id : Z;
  reserve_ausd : Z;
  reserve_supply : Z;
  last_price : Z
}.

(** [total_matches] is [None] where the source leaves the member
    uninitialised (the early return on an empty book);
    [processing_time] is a wall-clock measurement and is not carried. *)
Record BatchAuctionResult := mkBatch {
  matches : list (Z * Z);
  clearing_prices : list Z;
  clearing_quantities : list Z;
  batch_total_matches : option Z
}.

(** One call of [executeFill]. *)
Record Fill := mkFill {
  fill_bid_id : Z;
  fill_ask_id : Z;
  fill_price : Z;
  fill_quantity : Z
}.

(** The engine.  [avg_match_latency] (floating point) and the device
    buffers [d_orders], [d_matches] are scratch state of no operation
    below and are not carried.  [fills] is ghost state: the source's
    [executeFill] has an empty body, and [fills] records its calls,
    most recent last. *)
Record Engine := mkEngine {
  bid_books : gmap Z (list Order);
  ask_books : gmap Z (list Order);
  ad_slots : gmap Z AdSlot;
  amm_pools : gmap Z AdMM_Pool;
  commit_phase_orders : gmap Z (list Order);
  reveal_deadlines : gmap Z Time;
  total_orders_processed : Z;
  total_matches : Z;
  fills : list Fill
}.

Definition empty_engine : Engine :=
  mkEngine ∅ ∅ ∅ ∅ ∅ ∅ 0 0 [].

Record EngineStats := mkStats {
  stat_total_orders : Z;
  stat_total_matches : Z;
  stat_active_slots : Z;
  stat_active_pools : Z
}.

(** ** Sorting interface *)

(** A comparator in the sense of [std::sort]: a strict weak ordering. *)
Record StrictWeak {A} (lt : A -> A -> bool) : Prop := {
  sw_asym : forall a b, lt a b = true -> lt b a = false;
  sw_negtrans : forall a b c, lt b a = false -> lt c b = false -> lt c a = false
}.

(** Ordered for [lt]: no later element is strictly before an earlier one. *)
Definition ordered {A} (lt : A -> A -> bool) : list A -> Prop :=
  StronglySorted (fun a b => lt b a = false).

(** A sorting routine, and the contract of [std::sort]. *)
Record Sorter := mkSorter {
  sort_with : (Order -> Order -> bool) -> list Order -> list Order
}.

Class SorterOk (T : Sorter) : Prop := {
  sort_perm : forall lt l, sort_with T lt l ≡ₚ l;
  sort_ordered : forall lt l, StrictWeak lt -> ordered lt (sort_with T lt l)
}.

(** Insertion sort, the algorithm libstdc++ runs on short ranges; it keeps
    equivalent elements in their input order. *)
Fixpoint insert_sorted {A} (lt : A -> A -> bool) (x : A) (l : list A) : list A :=
  match l with
  | [] => [x]
  | y :: l' => if lt x y then x :: y :: l' else y :: insert_sorted lt x l'
  end.

Definition insertion_sort {A} (lt : A -> A -> bool) (l : list A) : list A :=
  fold_left (fun acc x => insert_sorted lt x acc) l [].

Definition insertion_sorter : Sorter := mkSorter (fun lt l => insertion_sort lt l).

(** ** AdSlot *)

(** [AdSlot::getCurrentPrice]. *)
Definition getCurrentPrice (s : AdSlot) (now : Time) : Z :=
  if (now >? end_time s) || negb (active s) then 0
  else if now <? start_time s then floor_cpm s
  else
    let time_remaining := to_milliseconds (end_time s - now) in
    let total_window := to_milliseconds (end_time s - start_time s) in
    if total_window <=? 0 then floor_cpm s
    else
      let premium := Z.quot (floor_cpm s) 2 in
      to_int64 (floor_cpm s
                + Z.quot (to_int64 (premium * time_remaining)) total_window).

(** [AdSlot::remainingSupply]. *)
Definition remainingSupply (s : AdSlot) : Z :=
  if max_impressions s >? delivered s
  then to_uint64 (max_impressions s - delivered s)
  else 0.

(** ** Order *)

(** [Order::priority]. *)
Definition priority (o : Order) : Z :=
  Z.lor (to_uint64 (Z.shiftl (to_uint64 (limit_price o)) 32))
        (to_uint64 (created o)).

Definition set_quantity (o : Order) (q : Z) : Order :=
  mkOrder (order_id o) (trader o) (slot_id o) (type o) (is_buy o)
          (limit_price o) q (created o) (expires o) (targeting_hash o)
          (commit_hash o) (revealed o) (revealed_price o).

Definition set_expires (o : Order) (x : Time) : Order :=
  mkOrder (order_id o) (trader o) (slot_id o) (type o) (is_buy o)
          (limit_price o) (quantity o) (created o) x (targeting_hash o)
          (commit_hash o) (revealed o) (revealed_price o).

Definition set_revealed (o : Order) (p : Z) : Order :=
  mkOrder (order_id o) (trader o) (slot_id o) (type o) (is_buy o)
          (limit_price o) (quantity o) (created o) (expires o)
          (targeting_hash o) (commit_hash o) true p.

(** ** AdMM_Pool *)

(** A value-initialised pool, as [operator[]] creates it. *)
Definition zero_pool : AdMM_Pool := mkPool 0 0 0 0.

(** [AdMM_Pool::getSwapPrice].  [k / new_supply] divides a [Price] by a
    [Quantity], hence unsigned; [k / new_ausd] divides two [Price]s, hence
    signed and truncating. *)
Definition getSwapPrice (p : AdMM_Pool) (quantity_in : Z) (buy_ausd : bool)
  : result Z :=
  if (reserve_ausd p =? 0) || (reserve_supply p =? 0) then Ok 0
  else
    let k := to_int64 (to_uint64 (to_uint64 (reserve_ausd p) * reserve_supply p)) in
    if buy_ausd then
      let new_supply := to_uint64 (reserve_supply p + quantity_in) in
      if new_supply =? 0 then DivByZero
      else
        let new_ausd := to_int64 (to_uint64 k / new_supply) in
        Ok (to_int64 (reserve_ausd p - new_ausd))
    else
      let new_ausd := to_int64 (to_uint64 (to_uint64 (reserve_ausd p) + quantity_in)) in
      if new_ausd =? 0 then DivByZero
      else if (k =? min_int64) && (new_ausd =? -1) then DivOverflow
      else
        let new_supply := to_uint64 (Z.quot k new_ausd) in
        Ok (to_int64 (to_uint64 (reserve_supply p - new_supply))).

(** [pool.last_price = pool.reserve_ausd / pool.reserve_supply]:
    a [Price] by a [Quantity], unsigned. *)
Definition update_last_price (p : AdMM_Pool) : result AdMM_Pool :=
  if reserve_supply p =? 0 then DivByZero
  else Ok (mkPool (pool_slot_id p) (reserve_ausd p) (reserve_supply p)
                  (to_int64 (to_uint64 (reserve_ausd p) / reserve_supply p))).

(** The reserve updates of [executeAMMSwap], before [last_price]. *)
Definition swap_reserves (p : AdMM_Pool) (o : Order) (swap_amount : Z) : AdMM_Pool :=
  if is_buy o then
    mkPool (pool_slot_id p)
           (to_int64 (to_uint64 (to_uint64 (reserve_ausd p) + quantity o)))
           (to_uint64 (reserve_supply p - to_uint64 swap_amount))
           (last_price p)
  else
    mkPool (pool_slot_id p)
           (to_int64 (reserve_ausd p - swap_amount))
           (to_uint64 (reserve_supply p + quantity o))
           (last_price p).

(** The product of the reserves, as a mathematical integer. *)
Definition reserve_product (p : AdMM_Pool) : Z := reserve_ausd p * reserve_supply p.

(** ** Engine state updates *)

Definition with_bid_books (e : Engine) m : Engine :=
  mkEngine m (ask_books e) (ad_slots e) (amm_pools e) (commit_phase_orders e)
           (reveal_deadlines e) (total_orders_processed e) (total_matches e) (fills e).
Definition with_ask_books (e : Engine) m : Engine :=
  mkEngine (bid_books e) m (ad_slots e) (amm_pools e) (commit_phase_orders e)
           (reveal_deadlines e) (total_orders_processed e) (total_matches e) (fills e).
Definition with_ad_slots (e : Engine) m : Engine :=
  mkEngine (bid_books e) (ask_books e) m (amm_pools e) (commit_phase_orders e)
           (reveal_deadlines e) (total_orders_processed e) (total_matches e) (fills e).
Definition with_amm_pools (e : Engine) m : Engine :=
  mkEngine (bid_books e) (ask_books e) (ad_slots e) m (commit_phase_orders e)
           (reveal_deadlines e) (total_orders_processed e) (total_matches e) (fills e).
Definition with_commit_phase_orders (e : Engine) m : Engine :=
  mkEngine (bid_books e) (ask_books e) (ad_slots e) (amm_pools e) m
           (reveal_deadlines e) (total_orders_processed e) (total_matches e) (fills e).
Definition with_reveal_deadlines (e : Engine) m : Engine :=
  mkEngine (bid_books e) (ask_books e) (ad_slots e) (amm_pools e)
           (commit_phase_orders e) m (total_orders_processed e) (total_matches e) (fills e).
Definition with_total_orders_processed (e : Engine) n : Engine :=
  mkEngine (bid_books e) (ask_books e) (ad_slots e) (amm_pools e)
           (commit_phase_orders e) (reveal_deadlines e) n (total_matches e) (fills e).
Definition with_matching (e : Engine) n fs : Engine :=
  mkEngine (bid_books e) (ask_books e) (ad_slots e) (amm_pools e)
           (commit_phase_orders e) (reveal_deadlines e) (total_orders_processed e) n fs.

(** [m[k]]: the entry, and the map with a value-initialised entry added
    when [k] was absent. *)
Definition subscript {V} (m : gmap Z V) (k : Z) (dflt : V) : V * gmap Z V :=
  match m !! k with
  | Some v => (v, m)
  | None => (dflt, <[k := dflt]> m)
  end.

(** ** The immediate matcher *)

(** One iteration of the [while] loop of [tryImmedateMatch]:
    [None] when the loop exits, otherwise the books after the iteration
    and the arguments of the [executeFill] call. *)
Definition match_step (bids asks : list Order)
  : option (list Order * list Order * Fill) :=
  match bids, asks with
  | best_bid :: bids', best_ask :: asks' =>
      if limit_price best_bid >=? limit_price best_ask then
        let fill_qty := Z.min (quantity best_bid) (quantity best_ask) in
        let fill_price := limit_price best_ask in
        let bids1 :=
          if quantity best_bid =? fill_qty then bids'
          else set_quantity best_bid (to_uint64 (quantity best_bid - fill_qty)) :: bids' in
        let asks1 :=
          if quantity best_ask =? fill_qty then asks'
          else set_quantity best_ask (to_uint64 (quantity best_ask - fill_qty)) :: asks' in
        Some (bids1, asks1,
              mkFill (order_id best_bid) (order_id best_ask) fill_price fill_qty)
      else None
  | _, _ => None
  end.

(** The loop: books, [total_matches] and the fills emitted so far. *)
Fixpoint match_loop (fuel : nat) (bids asks : list Order) (tm : Z) (fs : list Fill)
  : result (list Order * list Order * Z * list Fill) :=
  match match_step bids asks with
  | None => Ok (bids, asks, tm, fs)
  | Some (bids1, asks1, f) =>
      match fuel with
      | O => OutOfFuel
      | S fuel' => match_loop fuel' bids1 asks1 (to_uint64 (tm + 1)) (fs ++ [f])
      end
  end.

(** [ADXMatchingEngine::tryImmedateMatch]. *)
Definition tryImmedateMatch (e : Engine) (slot : Z) : result Engine :=
  let '(bids, bb) := subscript (bid_books e) slot [] in
  let '(asks, ab) := subscript (ask_books e) slot [] in
  '(bids', asks', tm, fs) ←
    match_loop (length bids + length asks) bids asks (total_matches e) (fills e);
  Ok (with_matching
        (with_ask_books (with_bid_books e (<[slot := bids']> bb)) (<[slot := asks']> ab))
        tm fs).

(** ** The batch auction *)

(** [ADXMatchingEngine::matchOrdersGPU]: for each bid in turn, the first
    ask it crosses with the same targeting. *)
Definition matchOrdersGPU (orders : list Order) (bid_count : nat) : list (Z * Z) :=
  let asks := drop bid_count orders in
  omap (fun bid =>
          (fun ask => (order_id bid, order_id ask)) <$>
          find (fun ask => (limit_price bid >=? limit_price ask)
                           && (targeting_hash bid =? targeting_hash ask)) asks)
       (take bid_count orders).

(** [ADXMatchingEngine::calculateClearingPrices]. *)
Definition calculateClearingPrices (ms : list (Z * Z)) : list Z :=
  (fun _ => 0) <$> ms.

(** The comparators handed to [std::sort] and to [thrust::sort]. *)
Definition price_gt (a b : Order) : bool := limit_price a >? limit_price b.
Definition price_lt (a b : Order) : bool := limit_price a <? limit_price b.
Definition priority_gt (a b : Order) : bool := priority a >? priority b.
Definition priority_lt (a b : Order) : bool := priority a <? priority b.

Section Engine.

(** [std::sort] and [thrust::sort]. *)
Context (std_sort thrust_sort : Sorter).

(** The result of [runBatchAuction] on two non-empty books. *)
Definition batch_result (bids asks : list Order) : BatchAuctionResult :=
  let d_orders := sort_with thrust_sort priority_gt bids
                  ++ sort_with thrust_sort priority_lt asks in
  let ms := matchOrdersGPU d_orders (length bids) in
  mkBatch ms
          (if bool_decide (ms = []) then [] else calculateClearingPrices ms)
          []
          (Some (Z.of_nat (length ms))).

(** [ADXMatchingEngine::runBatchAuction]. *)
Definition runBatchAuction (e : Engine) (slot : Z) : BatchAuctionResult * Engine :=
  let '(bids, bb) := subscript (bid_books e) slot [] in
  let '(asks, ab) := subscript (ask_books e) slot [] in
  let e1 := with_ask_books (with_bid_books e bb) ab in
  match bids, asks with
  | [], _ | _, [] => (mkBatch [] [] [] None, e1)
  | _, _ =>
      let r := batch_result bids asks in
      (r, with_matching e1
            (to_uint64 (total_matches e1 + Z.of_nat (length (matches r))))
            (fills e1))
  end.

(** [ADXMatchingEngine::registerAdSlot]. *)
Definition registerAdSlot (e : Engine) (s : AdSlot) : bool * Engine :=
  match ad_slots e !! slot_slot_id s with
  | Some _ => (false, e)
  | None =>
      (true,
       with_ask_books
         (with_bid_books
            (with_ad_slots e (<[slot_slot_id s := s]> (ad_slots e)))
            (<[slot_slot_id s := []]> (bid_books e)))
         (<[slot_slot_id s := []]> (ask_books e)))
  end.

(** [ADXMatchingEngine::addLimitOrder]. *)
Definition addLimitOrder (e : Engine) (o : Order) : result (bool * Engine) :=
  let e1 :=
    if is_buy o then
      let '(book, bb) := subscript (bid_books e) (slot_id o) [] in
      with_bid_books e
        (<[slot_id o := sort_with std_sort price_gt (book ++ [o])]> bb)
    else
      let '(book, ab) := subscript (ask_books e) (slot_id o) [] in
      with_ask_books e
        (<[slot_id o := sort_with std_sort price_lt (book ++ [o])]> ab) in
  let e2 := with_total_orders_processed e1
              (to_uint64 (total_orders_processed e1 + 1)) in
  match type o with
  | MARKET => e3 ← tryImmedateMatch e2 (slot_id o); Ok (true, e3)
  | _ => Ok (true, e2)
  end.

(** [ADXMatchingEngine::addCommitRevealOrder]. *)
Definition addCommitRevealOrder (e : Engine) (o : Order) : bool * Engine :=
  let '(orders, m) := subscript (commit_phase_orders e) (slot_id o) [] in
  (true, with_commit_phase_orders e (<[slot_id o := orders ++ [o]]> m)).

(** [ADXMatchingEngine::executeAMMSwap]. *)
Definition executeAMMSwap (e : Engine) (o : Order) : result (bool * Engine) :=
  let '(pool, pools) := subscript (amm_pools e) (slot_id o) zero_pool in
  swap_amount ← getSwapPrice pool (quantity o) (is_buy o);
  if swap_amount <=? 0 then Ok (false, with_amm_pools e pools)
  else
    pool' ← update_last_price (swap_reserves pool o swap_amount);
    Ok (true, with_amm_pools e (<[slot_id o := pool']> pools)).

(** [ADXMatchingEngine::executeFlashCover]. *)
Definition executeFlashCover (e : Engine) (o : Order) : bool * Engine :=
  (true, e).

(** [ADXMatchingEngine::addOrder]. *)
Definition addOrder (e : Engine) (o : Order) (now : Time) : result (bool * Engine) :=
  match ad_slots e !! slot_id o with
  | None => Ok (false, e)
  | Some slot =>
      if negb (targeting_hash o =? slot_targeting_hash slot) then Ok (false, e)
      else if now >? end_time slot then Ok (false, e)
      else
        match type o with
        | LIMIT | MARKET => addLimitOrder e o
        | COMMIT_REVEAL => Ok (addCommitRevealOrder e o)
        | AMM_SWAP => executeAMMSwap e o
        | FLASH_COVER => Ok (executeFlashCover e o)
        end
  end.

(** [ADXMatchingEngine::startCommitPhase]; [duration_ms] is a [uint32_t]. *)
Definition startCommitPhase (e : Engine) (slot : Z) (duration_ms : Z) (now : Time)
  : bool * Engine :=
  let deadline := now + duration_ms * ticks_per_ms in
  (true,
   with_commit_phase_orders
     (with_reveal_deadlines e (<[slot := deadline]> (reveal_deadlines e)))
     (<[slot := []]> (commit_phase_orders e))).

(** [std::to_string(revealed_price) + reveal_nonce]. *)
Definition reveal_data (revealed_price : Z) (reveal_nonce : string) : string :=
  pretty revealed_price +:+ reveal_nonce.

(** [ADXMatchingEngine::revealBid].  [reveal_data] is built and not used:
    the source has the comment "Hash validation would go here" in place
    of the comparison. *)
Definition revealBid (e : Engine) (slot : Z) (oid : Z) (revealed_price : Z)
           (reveal_nonce : string) (now : Time) : bool * Engine :=
  match reveal_deadlines e !! slot with
  | None => (false, e)
  | Some deadline =>
      if now >? deadline then (false, e)
      else
        let '(orders, m) := subscript (commit_phase_orders e) slot [] in
        match list_find (fun o => order_id o = oid) orders with
        | None => (false, with_commit_phase_orders e m)
        | Some (i, o) =>
            let reveal_data := reveal_data revealed_price reveal_nonce in
            (true,
             with_commit_phase_orders e
               (<[slot := <[i := set_revealed o revealed_price]> orders]> m))
        end
  end.

(** [ADXMatchingEngine::addLiquidity]. *)
Definition addLiquidity (e : Engine) (slot : Z) (ausd_amount slot_amount : Z)
  : result (bool * Engine) :=
  let '(pool, pools) := subscript (amm_pools e) slot zero_pool in
  pool' ← update_last_price
            (mkPool (pool_slot_id pool)
                    (to_int64 (reserve_ausd pool + ausd_amount))
                    (to_uint64 (reserve_supply pool + slot_amount))
                    (last_price pool));
  Ok (true, with_amm_pools e (<[slot := pool']> pools)).

(** [ADXMatchingEngine::getStats] (without the floating-point latency). *)
Definition getStats (e : Engine) : EngineStats :=
  mkStats (total_orders_processed e)
          (total_matches e)
          (to_uint32 (Z.of_nat (size (ad_slots e))))
          (to_uint32 (Z.of_nat (size (amm_pools e)))).

End Engine.

(** A comparison sort sees its elements through the comparator alone:
    renaming the elements by a map that keeps every comparison renames the
    result. *)
Class ComparisonSort (T : Sorter) : Prop := {
  sort_natural : forall lt (f : Order -> Order) l,
    (forall a b, lt (f a) (f b) = lt a b) ->
    sort_with T lt (f <$> l) = f <$> sort_with T lt l
}.

Global Instance OrderType_eq_dec : EqDecision OrderType.
Proof. solve_decision. Defined.

Global Instance Order_eq_dec : EqDecision Order.
Proof. solve_decision. Defined.

(** Exchanging two orders. *)
Definition swap_orders (x y o : Order) : Order :=
  if decide (o = x) then y else if decide (o = y) then x else o.

(** ** Operations as data, and runs of the engine *)

Inductive Op :=
| OpRegisterAdSlot (s : AdSlot)
| OpAddOrder (o : Order) (now : Time)
| OpRunBatchAuction (slot : Z)
| OpStartCommitPhase (slot duration_ms : Z) (now : Time)
| OpRevealBid (slot oid revealed_price : Z) (reveal_nonce : string) (now : Time)
| OpAddLiquidity (slot ausd_amount slot_amount : Z).

Definition apply_op (std_sort thrust_sort : Sorter) (e : Engine) (op : Op)
  : result Engine :=
  match op with
  | OpRegisterAdSlot s => Ok (registerAdSlot e s).2
  | OpAddOrder o now => r ← addOrder std_sort e o now; Ok r.2
  | OpRunBatchAuction slot => Ok (runBatchAuction thrust_sort e slot).2
  | OpStartCommitPhase slot d now => Ok (startCommitPhase e slot d now).2
  | OpRevealBid slot oid p n now => Ok (revealBid e slot oid p n now).2
  | OpAddLiquidity slot a q => r ← addLiquidity e slot a q; Ok r.2
  end.

Fixpoint run_ops (std_sort thrust_sort : Sorter) (e : Engine) (ops : list Op)
  : result Engine :=
  match ops with
  | [] => Ok e
  | op :: ops' =>
      e' ← apply_op std_sort thrust_sort e op;
      run_ops std_sort thrust_sort e' ops'
  end.

(** ** Predicates of the specification *)

(** A book ordered by price alone: what the comparators of
    [addLimitOrder] ask for. *)
Definition bids_by_price : list Order -> Prop := ordered price_gt.
Definition asks_by_price : list Order -> Prop := ordered price_lt.

Definition books_by_price (e : Engine) : Prop :=
  map_Forall (fun _ l => bids_by_price l) (bid_books e)
  /\ map_Forall (fun _ l => asks_by_price l) (ask_books e).

(** A book ordered by price, then by [created] ascending. *)
Definition bid_before (a b : Order) : Prop :=
  limit_price a > limit_price b
  \/ (limit_price a = limit_price b /\ created a <= created b).
Definition ask_before (a b : Order) : Prop :=
  limit_price a < limit_price b
  \/ (limit_price a = limit_price b /\ created a <= created b).

Definition bids_by_price_time : list Order -> Prop := StronglySorted bid_before.
Definition asks_by_price_time : list Order -> Prop := StronglySorted ask_before.

(** The orders committed for a slot. *)
Definition committed (e : Engine) (slot : Z) : list Order :=
  default [] (commit_phase_orders e !! slot).

(** The resting orders of a slot. *)
Definition bids_of (e : Engine) (slot : Z) : list Order :=
  default [] (bid_books e !! slot).
Definition asks_of (e : Engine) (slot : Z) : list Order :=
  default [] (ask_books e !! slot).

(** The [delivered] counter of a slot. *)
Definition delivered_of (e : Engine) (slot : Z) : Z :=
  default 0 (delivered <$> ad_slots e !! slot).

(** The quantity carried by a list of fills, and by a book. *)
Definition fill_total (fs : list Fill) : Z :=
  foldr (fun f acc => fill_quantity f + acc) 0 fs.
Definition book_total (l : list Order) : Z :=
  foldr (fun o acc => quantity o + acc) 0 l.

(** The pre-routing checks of [addOrder]: the slot is registered, the
    targeting hashes agree and the slot's [end_time] has not passed. *)
Definition validates (e : Engine) (o : Order) (now : Time) : bool :=
  match ad_slots e !! slot_id o with
  | Some s => (targeting_hash o =? slot_targeting_hash s) && (now <=? end_time s)
  | None => false
  end.

(** Submitting a list of orders, one after the other. *)
Definition submissions (os : list Order) (now : Time) : list Op :=
  (fun o => OpAddOrder o now) <$> os.

(** The orders of [os] that come to rest on one side of a slot's book. *)
Definition resting_on (e : Engine) (now : Time) (slot : Z) (buy : bool)
           (os : list Order) : list Order :=
  filter (fun o => validates e o now = true /\ slot_id o = slot /\ is_buy o = buy) os.

(** The price arithmetic of [getCurrentPrice] stays inside [int64_t]. *)
Definition price_in_range (s : AdSlot) : Prop :=
  0 <= floor_cpm s
  /\ Z.quot (floor_cpm s) 2 * to_milliseconds (end_time s - start_time s) <= max_int64
  /\ floor_cpm s + Z.quot (floor_cpm s) 2 <= max_int64.

(** The arithmetic of a quote stays inside 64 bits. *)
Definition pool_in_range (p : AdMM_Pool) (quantity_in : Z) : Prop :=
  0 < reserve_ausd p /\ 0 < reserve_supply p /\ 0 <= quantity_in
  /\ reserve_ausd p * reserve_supply p <= max_int64
  /\ reserve_supply p + quantity_in < 2 ^ 64
  /\ reserve_ausd p + quantity_in <= max_int64.

(** An operation that is neither a swap nor a deposit of liquidity. *)
Definition leaves_pools (op : Op) : Prop :=
  match op with
  | OpAddLiquidity _ _ _ => False
  | OpAddOrder o _ => type o <> AMM_SWAP
  | _ => True
  end.

(** The engine [addLimitOrder] hands to the matcher. *)
Definition book_inserted (std_sort : Sorter) (e : Engine) (o : Order) : Engine :=
  with_total_orders_processed
    (if is_buy o
     then with_bid_books e
            (<[slot_id o := sort_with std_sort price_gt (bids_of e (slot_id o) ++ [o])]>
               (bid_books e))
     else with_ask_books e
            (<[slot_id o := sort_with std_sort price_lt (asks_of e (slot_id o) ++ [o])]>
               (ask_books e)))
    (to_uint64 (total_orders_processed e + 1)).

(** ** Scenarios *)

Definition slot_S1 : AdSlot :=
  mkAdSlot 1 "pub" "ctv-preroll" 77 0 1000000000 100 0 1000 70 true.

(** [S1] with another floor price. *)
Definition slot_with_floor (f : Z) : AdSlot :=
  mkAdSlot 1 "pub" "ctv-preroll" 77 0 1000000000 100 0 f 70 true.


(** [S1] with room for five impressions. *)
Definition slot_small : AdSlot :=
  mkAdSlot 1 "pub" "ctv-preroll" 77 0 1000000000 5 0 1000 70 true.

Definition engine_S1 : Engine := (registerAdSlot empty_engine slot_S1).2.
Definition engine_small : Engine := (registerAdSlot empty_engine slot_small).2.

(** An order on slot 1 with the targeting of [S1]. *)
Definition order_on_S1 (id : Z) (ty : OrderType) (buy : bool)
           (price qty : Z) (created expires : Time) : Order :=
  mkOrder id "trader" 1 ty buy price qty created expires 77 "" false 0.

(** [S1] with a pool of 1000 AUSD against 100 impressions. *)
Definition engine_pool : Engine :=
  with_amm_pools engine_S1 {[ 1 := mkPool 0 1000 100 10 ]}.

(** [S1] in its commit phase, holding one sealed order. *)
Definition sealed_order (c : string) : Order :=
  mkOrder 7 "trader" 1 COMMIT_REVEAL true 2000 10 0 1000000000 77 c false 0.
Definition engine_sealed (c : string) : Engine :=
  (addCommitRevealOrder (startCommitPhase engine_S1 1 100 0).2 (sealed_order c)).2.

(** Two bids at one price; the second to arrive was created first. *)
Definition bid_late_created : Order := order_on_S1 1 LIMIT true 100 10 10 2000000000.
Definition bid_early_created : Order := order_on_S1 2 LIMIT true 100 10 5 2000000000.

Definition ops_two_bids : list Op :=
  [OpRegisterAdSlot slot_S1;
   OpAddOrder bid_late_created 20;
   OpAddOrder bid_early_created 30].

(** Two asks alike in price and creation time, and a bid that crosses both. *)
Definition ask_twin_1 : Order := order_on_S1 1 LIMIT false 1000 10 5 2000000000.
Definition ask_twin_2 : Order := order_on_S1 2 LIMIT false 1000 10 5 2000000000.
Definition bid_crossing : Order := order_on_S1 3 LIMIT true 1500 10 6 2000000000.

(** A bid for nothing that expired before it is submitted at time 10. *)
Definition bid_empty_expired : Order := order_on_S1 4 LIMIT true 1500 0 1 5.

(** A sealed bid and a swap on [S1]. *)
Definition sealed_bid : Order := order_on_S1 5 COMMIT_REVEAL true 2000 10 1 2000000000.
Definition swap_buy (qty : Z) : Order := order_on_S1 6 AMM_SWAP true 0 qty 1 2000000000.

(** The pool of scenario 4. *)
Definition pool_scenario_4 : AdMM_Pool := mkPool 0 1000000 1000 1000.

(** Scenario 2 on a slot with room for five impressions: a resting bid of
    ten, then a marketable ask of ten. *)
Definition resting_bid : Order := order_on_S1 1 LIMIT true 1500 10 1 2000000000.
Definition market_ask : Order := order_on_S1 2 MARKET false 1000 10 2 2000000000.

(** The two bids of [ops_two_bids], arriving the other way round. *)
Definition ops_two_bids_swapped : list Op :=
  [OpRegisterAdSlot slot_S1;
   OpAddOrder bid_early_created 20;
   OpAddOrder bid_late_created 30].

(** A crossed book on [S1]: limit orders rest without being matched. *)
Definition resting_ask_4 : Order := order_on_S1 8 LIMIT false 1000 4 2 2000000000.
Definition engine_crossed : Engine :=
  book_inserted insertion_sorter
    (book_inserted insertion_sorter engine_S1 resting_bid) resting_ask_4.

(** [o] is an order of the book [l0], or what a partial fill left of it. *)
Definition remainder_of (l0 : list Order) (o : Order) : Prop :=
  exists o0, o0 ∈ l0 /\ order_id o = order_id o0 /\ limit_price o = limit_price o0
             /\ 0 <= quantity o <= quantity o0 /\ quantity o0 < 2 ^ 64.

(** A quantity that is positive and fits [uint64_t]. *)
Definition positive_quantity (o : Order) : Prop := 0 < quantity o < 2 ^ 64.

(** A resting order is where it belongs: in the book of its own slot and
    side, of a type that rests, on a registered slot whose targeting it
    shares. *)
Definition placed (e : Engine) (slot : Z) (buy : bool) (o : Order) : Prop :=
  slot_id o = slot /\ is_buy o = buy
  /\ (type o = LIMIT \/ type o = MARKET)
  /\ exists s, ad_slots e !! slot = Some s
               /\ targeting_hash o = slot_targeting_hash s.

Definition well_placed (e : Engine) : Prop :=
  forall slot,
    Forall (placed e slot true) (bids_of e slot)
    /\ Forall (placed e slot false) (asks_of e slot).

(** The test [matchOrdersGPU] makes of a bid and an ask. *)
Definition crosses (bid ask : Order) : bool :=
  (limit_price bid >=? limit_price ask)
  && (targeting_hash bid =? targeting_hash ask).

(** A market bid, sent to an empty book. *)
Definition market_bid : Order := order_on_S1 9 MARKET true 1500 10 3 2000000000.

(** Three bids and two asks on [S1], each at a price of its own. *)
Definition bid_at_100 : Order := order_on_S1 31 LIMIT true 100 10 1 2000000000.
Definition bid_at_300 : Order := order_on_S1 32 LIMIT true 300 10 2 2000000000.
Definition bid_at_200 : Order := order_on_S1 33 LIMIT true 200 10 3 2000000000.
Definition ask_at_1300 : Order := order_on_S1 34 LIMIT false 1300 10 4 2000000000.
Definition ask_at_1100 : Order := order_on_S1 35 LIMIT false 1100 10 5 2000000000.
Definition ops_five_prices : list Op :=
  [OpRegisterAdSlot slot_S1;
   OpAddOrder bid_at_100 10;
   OpAddOrder ask_at_1300 11;
   OpAddOrder bid_at_300 12;
   OpAddOrder bid_at_200 13;
   OpAddOrder ask_at_1100 14].

(** Three asks and three bids on [S1]: on either side two orders share a
    price and differ in [created], the third has a price of its own.  All
    six cross. *)
Definition ask_1000_early : Order := order_on_S1 11 LIMIT false 1000 10 5 2000000000.
Definition ask_1000_late : Order := order_on_S1 12 LIMIT false 1000 10 6 2000000000.
Definition ask_1100_first : Order := order_on_S1 13 LIMIT false 1100 10 4 2000000000.
Definition bid_1500_early : Order := order_on_S1 14 LIMIT true 1500 10 7 2000000000.
Definition bid_1500_late : Order := order_on_S1 15 LIMIT true 1500 10 8 2000000000.
Definition bid_1200_last : Order := order_on_S1 16 LIMIT true 1200 10 9 2000000000.
Definition six_orders : list Order :=
  [ask_1000_early; ask_1000_late; ask_1100_first;
   bid_1500_early; bid_1500_late; bid_1200_last].

(** A second slot, [S2], with a bid, an ask, a sealed order and a pool of
    its own, next to [S1] holding [resting_bid]. *)
Definition slot_S2 : AdSlot :=
  mkAdSlot 2 "pub-2" "display-top" 88 0 1000000000 50 0 500 60 true.
Definition order_on_S2 (id : Z) (ty : OrderType) (buy : bool)
           (price qty : Z) (created expires : Time) : Order :=
  mkOrder id "trader-2" 2 ty buy price qty created expires 88 "" false 0.
Definition bid_on_S2 : Order := order_on_S2 21 LIMIT true 700 5 1 2000000000.
Definition ask_on_S2 : Order := order_on_S2 22 LIMIT false 900 5 2 2000000000.
Definition sealed_on_S2 : Order := order_on_S2 23 COMMIT_REVEAL true 800 5 3 2000000000.
Definition ops_two_slots : list Op :=
  [OpRegisterAdSlot slot_S1;
   OpRegisterAdSlot slot_S2;
   OpAddOrder bid_on_S2 5;
   OpAddOrder ask_on_S2 5;
   OpStartCommitPhase 2 100 5;
   OpAddOrder sealed_on_S2 6;
   OpAddLiquidity 2 1000 100;
   OpAddOrder resting_bid 7].

(** * Properties *)

(** ** Machine integers *)

Lemma to_uint64_id z : is_uint64 z -> to_uint64 z = z.
Proof. unfold is_uint64, to_uint64. intros. apply Z.mod_small. lia. Qed.

Lemma to_int64_id z : is_int64 z -> to_int64 z = z.
Proof.
  unfold is_int64, to_int64, min_int64, max_int64. intros.
  rewrite Z.mod_small; lia.
Qed.

Lemma to_uint64_range z : is_uint64 (to_uint64 z).
Proof. unfold is_uint64, to_uint64. apply Z.mod_pos_bound. lia. Qed.

(** ** Comparators and sorting *)

Lemma price_gt_strict_weak : StrictWeak price_gt.
Proof. split; unfold price_gt; intros; lia. Qed.

Lemma price_lt_strict_weak : StrictWeak price_lt.
Proof. split; unfold price_lt; intros; lia. Qed.

Lemma priority_gt_strict_weak : StrictWeak priority_gt.
Proof. split; unfold priority_gt; intros; lia. Qed.

Lemma priority_lt_strict_weak : StrictWeak priority_lt.
Proof. split; unfold priority_lt; intros; lia. Qed.

Section InsertionSort.
Context {A : Type} (lt : A -> A -> bool).

Lemma insert_sorted_perm x l : insert_sorted lt x l ≡ₚ x :: l.
Proof.
  induction l as [|y l IH]; simpl; [done|].
  destruct (lt x y); [done|].
  rewrite IH. apply Permutation_swap.
Qed.

Lemma insertion_sort_acc_perm l acc :
  fold_left (fun acc x => insert_sorted lt x acc) l acc ≡ₚ acc ++ l.
Proof.
  revert acc. induction l as [|x l IH]; intros acc; simpl.
  - by rewrite app_nil_r.
  - rewrite IH, insert_sorted_perm. simpl. apply Permutation_middle.
Qed.

Lemma insertion_sort_perm l : insertion_sort lt l ≡ₚ l.
Proof. unfold insertion_sort. by rewrite insertion_sort_acc_perm. Qed.

Lemma insert_sorted_ordered x l :
  StrictWeak lt -> ordered lt l -> ordered lt (insert_sorted lt x l).
Proof.
  intros [Hasym Htrans]. unfold ordered.
  induction l as [|y l IH]; simpl; intros Hl.
  - repeat constructor.
  - apply StronglySorted_cons in Hl as [Hy Hl].
    destruct (lt x y) eqn:Hxy.
    + apply StronglySorted_cons. split.
      * constructor; [by apply Hasym|].
        eapply Forall_impl; [exact Hy|]. simpl. intros b Hb.
        eapply Htrans; [|exact Hb]. by apply Hasym.
      * apply StronglySorted_cons. by split.
    + apply StronglySorted_cons. split; [|by apply IH].
      rewrite insert_sorted_perm. by constructor.
Qed.

Lemma insertion_sort_acc_ordered l acc :
  StrictWeak lt -> ordered lt acc ->
  ordered lt (fold_left (fun acc x => insert_sorted lt x acc) l acc).
Proof.
  intros Hlt. revert acc. induction l as [|x l IH]; intros acc Hacc; simpl.
  - done.
  - apply IH. by apply insert_sorted_ordered.
Qed.

Lemma insertion_sort_ordered l : StrictWeak lt -> ordered lt (insertion_sort lt l).
Proof. intros. apply insertion_sort_acc_ordered; [done|]. constructor. Qed.
End InsertionSort.

Lemma insert_sorted_natural {A} (lt : A -> A -> bool) (f : A -> A) x l :
  (forall a b, lt (f a) (f b) = lt a b) ->
  insert_sorted lt (f x) (f <$> l) = f <$> insert_sorted lt x l.
Proof.
  intros Hf. induction l as [|y l IH]; [done|].
  rewrite fmap_cons. cbn [insert_sorted]. rewrite Hf.
  destruct (lt x y); [done|]. by rewrite fmap_cons, IH.
Qed.

Lemma insertion_sort_acc_natural {A} (lt : A -> A -> bool) (f : A -> A) l acc :
  (forall a b, lt (f a) (f b) = lt a b) ->
  fold_left (fun acc x => insert_sorted lt x acc) (f <$> l) (f <$> acc)
  = f <$> fold_left (fun acc x => insert_sorted lt x acc) l acc.
Proof.
  intros Hf. revert acc. induction l as [|x l IH]; intros acc; [done|].
  rewrite fmap_cons. cbn [fold_left].
  rewrite insert_sorted_natural by done. apply IH.
Qed.

(** Insertion sort meets the contract. *)
Global Instance insertion_sorter_ok : SorterOk insertion_sorter.
Proof.
  split; simpl.
  - intros lt l. apply insertion_sort_perm.
  - intros lt l. apply insertion_sort_ordered.
Qed.

Global Instance insertion_sorter_comparison : ComparisonSort insertion_sorter.
Proof.
  split; simpl. intros lt f l Hf. unfold insertion_sort.
  by rewrite <- insertion_sort_acc_natural.
Qed.

(** ** Time-decay pricing *)

Lemma to_milliseconds_nonneg d : 0 <= d -> 0 <= to_milliseconds d.
Proof. intros. unfold to_milliseconds, ticks_per_ms. apply Z.quot_pos; lia. Qed.

Lemma to_milliseconds_mono d1 d2 : d1 <= d2 -> to_milliseconds d1 <= to_milliseconds d2.
Proof. intros. unfold to_milliseconds, ticks_per_ms. apply Z.quot_le_mono; lia. Qed.

(** The premium term, when nothing overflows. *)
Lemma premium_term_bounds p r w :
  0 <= p -> 0 <= r <= w -> 0 < w -> 0 <= Z.quot (p * r) w <= p.
Proof.
  intros Hp Hr Hw. split.
  - apply Z.quot_pos; nia.
  - transitivity (Z.quot (p * w) w).
    + apply Z.quot_le_mono; nia.
    + rewrite Z.quot_mul; lia.
Qed.

Lemma getCurrentPrice_in_window s now :
  price_in_range s -> active s = true ->
  start_time s <= now <= end_time s ->
  0 < to_milliseconds (end_time s - start_time s) ->
  getCurrentPrice s now =
    floor_cpm s
    + Z.quot (Z.quot (floor_cpm s) 2 * to_milliseconds (end_time s - now))
             (to_milliseconds (end_time s - start_time s)).
Proof.
  intros (Hf & Hmul & Hsum) Hact Hnow Hw. unfold getCurrentPrice.
  rewrite Hact. simpl.
  replace (now >? end_time s) with false by lia.
  replace (now <? start_time s) with false by lia. simpl.
  replace (to_milliseconds (end_time s - start_time s) <=? 0) with false by lia.
  set (p := Z.quot (floor_cpm s) 2) in *.
  set (r := to_milliseconds (end_time s - now)).
  set (w := to_milliseconds (end_time s - start_time s)) in *.
  assert (0 <= p) by (apply Z.quot_pos; lia).
  assert (0 <= r <= w) as Hr.
  { split; [apply to_milliseconds_nonneg; lia | apply to_milliseconds_mono; lia]. }
  pose proof (premium_term_bounds p r w ltac:(done) Hr Hw).
  rewrite (to_int64_id (p * r)).
  - apply to_int64_id. unfold is_int64, min_int64, max_int64 in *. lia.
  - unfold is_int64, min_int64, max_int64 in *. nia.
Qed.

Lemma getCurrentPrice_short_window s now :
  active s = true -> start_time s <= now <= end_time s ->
  to_milliseconds (end_time s - start_time s) <= 0 ->
  getCurrentPrice s now = floor_cpm s.
Proof.
  intros Hact Hnow Hw. unfold getCurrentPrice. rewrite Hact. simpl.
  replace (now >? end_time s) with false by lia.
  replace (now <? start_time s) with false by lia. simpl.
  by replace (to_milliseconds (end_time s - start_time s) <=? 0) with true by lia.
Qed.



Lemma price_in_range_S1 : price_in_range slot_S1.
Proof. unfold price_in_range, max_int64. vm_compute. repeat split; discriminate. Qed.



(** One AUSD is [10^18] wei: with that floor and a one-second window the
    product [premium * time_remaining] leaves 64 bits, and the price half way
    through the window is below the floor. *)
Lemma current_price_wraps_at_one_ausd :
  ~ price_in_range (slot_with_floor (10 ^ 18))
  /\ getCurrentPrice (slot_with_floor (10 ^ 18)) 500000000 < 10 ^ 18.
Proof.
  split.
  - unfold price_in_range, max_int64. vm_compute. intros (_ & H & _). by apply H.
  - vm_compute. reflexivity.
Qed.

(** ** [operator[]] *)

Lemma subscript_fst {V} (m : gmap Z V) k d : (subscript m k d).1 = default d (m !! k).
Proof. unfold subscript. by destruct (m !! k). Qed.

Lemma subscript_insert {V} (m : gmap Z V) k d v :
  <[k := v]> (subscript m k d).2 = <[k := v]> m.
Proof.
  unfold subscript. destruct (m !! k); simpl; [done|]. apply insert_insert_eq.
Qed.

Lemma subscript_Forall {V} (P : Z -> V -> Prop) (m : gmap Z V) k d :
  P k d -> map_Forall P m -> map_Forall P (subscript m k d).2.
Proof.
  intros Hd Hm. unfold subscript. destruct (m !! k); simpl; [done|].
  by apply map_Forall_insert_2.
Qed.

(** ** The immediate matcher *)

(** Every iteration erases the head of at least one book. *)
Lemma match_step_shrinks bids asks bids' asks' f :
  match_step bids asks = Some (bids', asks', f) ->
  (length bids' + length asks' < length bids + length asks)%nat.
Proof.
  unfold match_step. destruct bids as [|b bids], asks as [|a asks]; try done.
  destruct (_ >=? _); [|done]. intros [= <- <- _].
  destruct (Z.min_spec (quantity b) (quantity a)) as [[_ ->]|[_ ->]];
    rewrite Z.eqb_refl; repeat case_match; simpl; lia.
Qed.

(** The fill of an iteration: the smaller of the two head quantities, at the
    price of the best ask; nothing else enters it. *)
Lemma match_step_fill b bids a asks bids' asks' f :
  match_step (b :: bids) (a :: asks) = Some (bids', asks', f) ->
  f = mkFill (order_id b) (order_id a) (limit_price a)
             (Z.min (quantity b) (quantity a)).
Proof. unfold match_step. destruct (_ >=? _); [|done]. by intros [= _ _ <-]. Qed.

Lemma ordered_set_quantity lt (o : Order) q l :
  (forall x y, lt x (set_quantity y q) = lt x y) ->
  ordered lt (o :: l) -> ordered lt (set_quantity o q :: l).
Proof.
  intros Hlt. unfold ordered. rewrite !StronglySorted_cons. intros [Ho Hl].
  split; [|done]. eapply Forall_impl; [exact Ho|]. simpl. intros x. by rewrite Hlt.
Qed.

Lemma ordered_tail {A} (lt : A -> A -> bool) (o : A) l :
  ordered lt (o :: l) -> ordered lt l.
Proof. unfold ordered. rewrite StronglySorted_cons. tauto. Qed.

Lemma match_step_ordered bids asks bids' asks' f :
  bids_by_price bids -> asks_by_price asks ->
  match_step bids asks = Some (bids', asks', f) ->
  bids_by_price bids' /\ asks_by_price asks'.
Proof.
  unfold match_step, bids_by_price, asks_by_price.
  destruct bids as [|b bids], asks as [|a asks]; try done.
  intros Hb Ha. destruct (_ >=? _); [|done]. intros [= <- <- _].
  split; case_match; eauto using ordered_tail;
    by apply ordered_set_quantity.
Qed.

(** Whatever holds of the books and is kept by an iteration holds at the
    exit of the loop. *)
Lemma match_loop_invariant (P : list Order -> list Order -> Prop) :
  (forall bids asks bids' asks' f,
      P bids asks -> match_step bids asks = Some (bids', asks', f) -> P bids' asks') ->
  forall n bids asks tm fs bids' asks' tm' fs',
    P bids asks ->
    match_loop n bids asks tm fs = Ok (bids', asks', tm', fs') ->
    P bids' asks'.
Proof.
  intros Hstep. induction n as [|n IH]; intros bids asks tm fs bids' asks' tm' fs' HP;
    simpl; destruct (match_step bids asks) as [[[b1 a1] f]|] eqn:E;
    try done; try (by intros [= <- <- _ _]).
  intros Hloop. eapply IH; [|exact Hloop]. eauto.
Qed.

(** The loop always exits: the fuel handed over by [tryImmedateMatch]
    is enough. *)
Lemma match_loop_terminates n :
  forall bids asks tm fs,
    (length bids + length asks <= n)%nat ->
    exists r, match_loop n bids asks tm fs = Ok r.
Proof.
  induction n as [|n IH]; intros bids asks tm fs Hn; simpl;
    destruct (match_step bids asks) as [[[b1 a1] f]|] eqn:E; eauto.
  - apply match_step_shrinks in E. lia.
  - apply IH. apply match_step_shrinks in E. lia.
Qed.

(** What an iteration fills leaves both books. *)
Lemma match_step_conserves bids asks bids' asks' f :
  Forall (fun o => is_uint64 (quantity o)) bids ->
  Forall (fun o => is_uint64 (quantity o)) asks ->
  match_step bids asks = Some (bids', asks', f) ->
  Forall (fun o => is_uint64 (quantity o)) bids'
  /\ Forall (fun o => is_uint64 (quantity o)) asks'
  /\ book_total bids = book_total bids' + fill_quantity f
  /\ book_total asks = book_total asks' + fill_quantity f.
Proof.
  unfold match_step. destruct bids as [|b bids], asks as [|a asks]; try done.
  intros Hb Ha. destruct (_ >=? _); [|done]. intros [= <- <- <-].
  apply Forall_cons in Hb as [Hqb Hb]. apply Forall_cons in Ha as [Hqa Ha].
  unfold is_uint64 in *. simpl.
  assert (forall q m, 0 <= q < 2 ^ 64 -> 0 <= m <= q ->
                      to_uint64 (q - m) = q - m) as Hsub.
  { intros. apply to_uint64_id. unfold is_uint64. lia. }
  repeat split; repeat case_match; simpl; try done;
    try (apply Forall_cons; split; [simpl; apply to_uint64_range|done]);
    try rewrite Hsub by lia; lia.
Qed.

Lemma match_loop_conserves n :
  forall bids asks tm fs bids' asks' tm' fs',
    Forall (fun o => is_uint64 (quantity o)) bids ->
    Forall (fun o => is_uint64 (quantity o)) asks ->
    match_loop n bids asks tm fs = Ok (bids', asks', tm', fs') ->
    exists new, fs' = fs ++ new
                /\ book_total bids = book_total bids' + fill_total new
                /\ book_total asks = book_total asks' + fill_total new.
Proof.
  induction n as [|n IH]; intros bids asks tm fs bids' asks' tm' fs' Hb Ha; simpl;
    destruct (match_step bids asks) as [[[b1 a1] f]|] eqn:E; try done;
    try (intros [= <- <- _ <-]; exists []; rewrite app_nil_r; simpl;
         repeat split; lia).
  intros Hloop.
  destruct (match_step_conserves _ _ _ _ _ Hb Ha E) as (Hb1 & Ha1 & Eb & Ea).
  destruct (IH _ _ _ _ _ _ _ _ Hb1 Ha1 Hloop) as (new & -> & Eb' & Ea').
  exists (f :: new). rewrite <- app_assoc. simpl. repeat split; lia || done.
Qed.

Ltac name_subscript :=
  match goal with
  | |- context [subscript ?m ?k ?d] =>
      let Hv := fresh "Hv" in
      let Hm := fresh "Hm" in
      pose proof (subscript_fst m k d) as Hv;
      pose proof (fun v => subscript_insert m k d v) as Hm;
      destruct (subscript m k d) as [? ?]; simpl in Hv, Hm; subst
  end.

(** [tryImmedateMatch] returns: the loop it runs, on the two books of the
    slot, and the engine it leaves. *)
Lemma tryImmedateMatch_returns e slot :
  exists bids' asks' tm fs,
    match_loop (length (bids_of e slot) + length (asks_of e slot))
               (bids_of e slot) (asks_of e slot) (total_matches e) (fills e)
    = Ok (bids', asks', tm, fs)
    /\ tryImmedateMatch e slot
       = Ok (with_matching
               (with_ask_books
                  (with_bid_books e (<[slot := bids']> (bid_books e)))
                  (<[slot := asks']> (ask_books e)))
               tm fs).
Proof.
  unfold tryImmedateMatch, bids_of, asks_of. do 2 name_subscript.
  destruct (match_loop_terminates
              (length (default [] (bid_books e !! slot))
               + length (default [] (ask_books e !! slot)))
              (default [] (bid_books e !! slot))
              (default [] (ask_books e !! slot))
              (total_matches e) (fills e) ltac:(lia)) as [[[[b1 a1] tm] fs] Hloop].
  exists b1, a1, tm, fs. split; [done|]. rewrite Hloop. simpl.
  by rewrite Hm, Hm0.
Qed.

Lemma addLimitOrder_unfold std_sort e o :
  addLimitOrder std_sort e o =
    match type o with
    | MARKET => e3 ← tryImmedateMatch (book_inserted std_sort e o) (slot_id o);
                Ok (true, e3)
    | _ => Ok (true, book_inserted std_sort e o)
    end.
Proof.
  unfold addLimitOrder, book_inserted, bids_of, asks_of.
  destruct (is_buy o); name_subscript; rewrite Hm; by destruct e.
Qed.

(** [addLimitOrder] accepts, always. *)
Lemma addLimitOrder_returns std_sort e o :
  exists e', addLimitOrder std_sort e o = Ok (true, e').
Proof.
  rewrite addLimitOrder_unfold.
  destruct (type o); eauto.
  destruct (tryImmedateMatch_returns (book_inserted std_sort e o) (slot_id o))
    as (? & ? & ? & ? & _ & ->). simpl. eauto.
Qed.

(** The matcher and the book insertion leave the slot registry, the pools
    and the commit arena alone. *)
Lemma tryImmedateMatch_frame e slot e' :
  tryImmedateMatch e slot = Ok e' ->
  ad_slots e' = ad_slots e /\ amm_pools e' = amm_pools e
  /\ commit_phase_orders e' = commit_phase_orders e
  /\ reveal_deadlines e' = reveal_deadlines e
  /\ total_orders_processed e' = total_orders_processed e.
Proof.
  destruct (tryImmedateMatch_returns e slot) as (? & ? & ? & ? & _ & ->).
  by intros [= <-].
Qed.

Lemma book_inserted_frame std_sort e o :
  ad_slots (book_inserted std_sort e o) = ad_slots e
  /\ amm_pools (book_inserted std_sort e o) = amm_pools e
  /\ commit_phase_orders (book_inserted std_sort e o) = commit_phase_orders e
  /\ reveal_deadlines (book_inserted std_sort e o) = reveal_deadlines e
  /\ total_matches (book_inserted std_sort e o) = total_matches e
  /\ fills (book_inserted std_sort e o) = fills e
  /\ total_orders_processed (book_inserted std_sort e o)
     = to_uint64 (total_orders_processed e + 1).
Proof. unfold book_inserted. by destruct (is_buy o). Qed.

Lemma addLimitOrder_frame std_sort e o b e' :
  addLimitOrder std_sort e o = Ok (b, e') ->
  b = true /\ ad_slots e' = ad_slots e /\ amm_pools e' = amm_pools e
  /\ commit_phase_orders e' = commit_phase_orders e
  /\ reveal_deadlines e' = reveal_deadlines e
  /\ total_orders_processed e' = to_uint64 (total_orders_processed e + 1).
Proof.
  rewrite addLimitOrder_unfold.
  pose proof (book_inserted_frame std_sort e o) as (H1 & H2 & H3 & H4 & _ & _ & H5).
  destruct (type o); try (intros [= <- <-]; done).
  destruct (tryImmedateMatch (book_inserted std_sort e o) (slot_id o)) as [e3| | |] eqn:E;
    [|done..].
  simpl. intros [= <- <-].
  apply tryImmedateMatch_frame in E as (-> & -> & -> & -> & ->). done.
Qed.

Lemma executeAMMSwap_frame e o b e' :
  executeAMMSwap e o = Ok (b, e') ->
  ad_slots e' = ad_slots e /\ bid_books e' = bid_books e
  /\ ask_books e' = ask_books e
  /\ commit_phase_orders e' = commit_phase_orders e
  /\ reveal_deadlines e' = reveal_deadlines e
  /\ total_orders_processed e' = total_orders_processed e
  /\ total_matches e' = total_matches e /\ fills e' = fills e.
Proof.
  unfold executeAMMSwap. destruct (subscript _ _ _) as [pool pools].
  destruct (getSwapPrice _ _ _) as [amt| | |]; simpl; [|done..].
  destruct (amt <=? 0); [by intros [= <- <-]|].
  destruct (update_last_price _); simpl; [|done..]. by intros [= <- <-].
Qed.

(** [addOrder] never writes to the slot registry. *)
Lemma addOrder_ad_slots std_sort e o now b e' :
  addOrder std_sort e o now = Ok (b, e') -> ad_slots e' = ad_slots e.
Proof.
  unfold addOrder. destruct (ad_slots e !! slot_id o) as [s|]; [|by intros [= <- <-]].
  destruct (negb _); [by intros [= <- <-]|].
  destruct (now >? end_time s); [by intros [= <- <-]|].
  destruct (type o).
  - intros H. by apply addLimitOrder_frame in H as (_ & -> & _).
  - intros H. by apply addLimitOrder_frame in H as (_ & -> & _).
  - unfold addCommitRevealOrder. destruct (subscript _ _ _). by intros [= <- <-].
  - intros H. by apply executeAMMSwap_frame in H as (-> & _).
  - by intros [= <- <-].
Qed.

(** ** Fills and the delivered counter *)

(** C2, as the code has it: a fill is the smaller of the two head
    quantities, with no truncation to the slot's remaining capacity; the
    matcher takes the filled quantity off both books and leaves the slot
    registry alone, so [delivered] never moves on a fill and
    [delivered <= max_impressions] is kept wherever it held. *)
Theorem immediate_match_fills :
  (forall b bids a asks bids' asks' f,
      match_step (b :: bids) (a :: asks) = Some (bids', asks', f) ->
      fill_quantity f = Z.min (quantity b) (quantity a)
      /\ fill_price f = limit_price a)
  /\ (forall e slot,
        exists e', tryImmedateMatch e slot = Ok e'
          /\ ad_slots e' = ad_slots e
          /\ (Forall (fun o => is_uint64 (quantity o)) (bids_of e slot) ->
              Forall (fun o => is_uint64 (quantity o)) (asks_of e slot) ->
              exists new, fills e' = fills e ++ new
                /\ book_total (bids_of e slot)
                   = book_total (bids_of e' slot) + fill_total new
                /\ book_total (asks_of e slot)
                   = book_total (asks_of e' slot) + fill_total new))
  /\ (forall std_sort e o now b e',
        addOrder std_sort e o now = Ok (b, e') ->
        ad_slots e' = ad_slots e
        /\ (forall s, delivered_of e' s = delivered_of e s)
        /\ (map_Forall (fun _ slot => delivered slot <= max_impressions slot)
                       (ad_slots e) ->
            map_Forall (fun _ slot => delivered slot <= max_impressions slot)
                       (ad_slots e'))).
Proof.
  split; [|split].
  - intros b bids a asks bids' asks' f Hstep.
    by rewrite (match_step_fill _ _ _ _ _ _ _ Hstep).
  - intros e slot.
    destruct (tryImmedateMatch_returns e slot) as (b1 & a1 & tm & fs & Hloop & ->).
    eexists. split; [done|]. split; [done|]. intros Hb Ha.
    destruct (match_loop_conserves _ _ _ _ _ _ _ _ _ Hb Ha Hloop)
      as (new & -> & Eb & Ea).
    exists new. unfold bids_of, asks_of in *. simpl.
    rewrite !lookup_insert_eq. simpl. done.
  - intros std_sort e o now b e' Hadd.
    apply addOrder_ad_slots in Hadd. unfold delivered_of. by rewrite Hadd.
Qed.

Lemma immediate_match_fills_witness :
  fill_quantity (mkFill 1 2 1000 10) = Z.min 10 10
  /\ exists e', tryImmedateMatch engine_small 1 = Ok e'
                /\ ad_slots e' = ad_slots engine_small.
Proof.
  destruct immediate_match_fills as (Hstep & Hmatch & _).
  split.
  - apply (Hstep resting_bid [] market_ask [] [] []). reflexivity.
  - destruct (Hmatch engine_small 1) as (e' & He & Hs & _). by exists e'.
Defined.

(** C2 as stated fails: the fill of ten is emitted whole against a
    capacity of five, and [delivered] stays where it was. *)
Lemma fill_without_delivery_counterexample :
  exists e1 e2,
    addOrder insertion_sorter engine_small resting_bid 10 = Ok (true, e1)
    /\ addOrder insertion_sorter e1 market_ask 20 = Ok (true, e2)
    /\ fill_total (fills e2) - fill_total (fills e1)
       <> delivered_of e2 1 - delivered_of e1 1
    /\ remainingSupply slot_small < fill_total (fills e2).
Proof.
  eexists _, _. split; [vm_compute; reflexivity|].
  split; [vm_compute; reflexivity|]. split; by vm_compute.
Qed.

(** ** Book ordering *)

Lemma ordered_nil {A} (lt : A -> A -> bool) : ordered lt [].
Proof. constructor. Qed.

Lemma StronglySorted_weaken {A} (R1 R2 : A -> A -> Prop) l :
  (forall a b, R1 a b -> R2 a b) -> StronglySorted R1 l -> StronglySorted R2 l.
Proof.
  intros HR. induction 1 as [|a l Hl IH Ha]; constructor; [done|].
  eapply Forall_impl; [exact Ha|]. auto.
Qed.

Lemma books_by_price_empty : books_by_price empty_engine.
Proof. split; apply map_Forall_empty. Qed.

Lemma book_inserted_by_price std_sort `{!SorterOk std_sort} e o :
  books_by_price e -> books_by_price (book_inserted std_sort e o).
Proof.
  intros [Hb Ha]. unfold book_inserted, books_by_price.
  destruct (is_buy o); simpl; (split; [|]); try done;
    apply map_Forall_insert_2; try done; apply sort_ordered;
    auto using price_gt_strict_weak, price_lt_strict_weak.
Qed.

Lemma bids_of_by_price e slot : books_by_price e -> bids_by_price (bids_of e slot).
Proof.
  intros [Hb _]. unfold bids_of. destruct (bid_books e !! slot) eqn:E; simpl.
  - by apply (Hb slot).
  - apply ordered_nil.
Qed.

Lemma asks_of_by_price e slot : books_by_price e -> asks_by_price (asks_of e slot).
Proof.
  intros [_ Ha]. unfold asks_of. destruct (ask_books e !! slot) eqn:E; simpl.
  - by apply (Ha slot).
  - apply ordered_nil.
Qed.

Lemma tryImmedateMatch_by_price e slot e' :
  books_by_price e -> tryImmedateMatch e slot = Ok e' -> books_by_price e'.
Proof.
  intros He.
  destruct (tryImmedateMatch_returns e slot) as (b1 & a1 & tm & fs & Hloop & ->).
  intros [= <-].
  apply (match_loop_invariant (fun b a => bids_by_price b /\ asks_by_price a)) in Hloop
      as [Hb1 Ha1].
  - destruct He as [Hb Ha]. split; simpl; by apply map_Forall_insert_2.
  - intros ????? [??] ?. by eapply match_step_ordered.
  - split; [by apply bids_of_by_price | by apply asks_of_by_price].
Qed.

Lemma addOrder_by_price std_sort `{!SorterOk std_sort} e o now b e' :
  books_by_price e -> addOrder std_sort e o now = Ok (b, e') -> books_by_price e'.
Proof.
  intros He. unfold addOrder.
  destruct (ad_slots e !! slot_id o) as [s|]; [|by intros [= <- <-]].
  destruct (negb _); [by intros [= <- <-]|].
  destruct (now >? end_time s); [by intros [= <- <-]|].
  pose proof (book_inserted_by_price std_sort e o He) as He1.
  destruct (type o) eqn:Ety; rewrite ?addLimitOrder_unfold, ?Ety.
  - by intros [= <- <-].
  - destruct (tryImmedateMatch _ _) as [e3| | |] eqn:E; [|done..].
    simpl. intros [= <- <-]. by eapply tryImmedateMatch_by_price.
  - unfold addCommitRevealOrder. destruct (subscript _ _ _). by intros [= <- <-].
  - intros H. apply executeAMMSwap_frame in H as (_ & Eb & Ea & _).
    destruct He. split; by rewrite ?Eb, ?Ea.
  - by intros [= <- <-].
Qed.

Lemma apply_op_by_price std_sort `{!SorterOk std_sort} thrust_sort e op e' :
  books_by_price e -> apply_op std_sort thrust_sort e op = Ok e' -> books_by_price e'.
Proof.
  intros He. destruct op; simpl.
  - unfold registerAdSlot. destruct (ad_slots e !! _); intros [= <-]; [done|].
    destruct He. split; simpl; apply map_Forall_insert_2; try done; apply ordered_nil.
  - destruct (addOrder _ _ _ _) as [[b e1]| | |] eqn:E; simpl; [|done..].
    intros [= <-]. by eapply addOrder_by_price.
  - unfold runBatchAuction.
    pose proof (subscript_Forall (fun _ l => bids_by_price l) (bid_books e) slot []
                  (ordered_nil _) (proj1 He)).
    pose proof (subscript_Forall (fun _ l => asks_by_price l) (ask_books e) slot []
                  (ordered_nil _) (proj2 He)).
    destruct (subscript (bid_books e) _ _) as [bids bb].
    destruct (subscript (ask_books e) _ _) as [asks ab].
    destruct bids, asks; intros [= <-]; by split.
  - intros [= <-]. by destruct He.
  - unfold revealBid. destruct (reveal_deadlines e !! _); [|by intros [= <-]].
    destruct (now >? _); [by intros [= <-]|].
    destruct (subscript _ _ _). destruct (list_find _ _) as [[??]|];
      intros [= <-]; by destruct He.
  - unfold addLiquidity. destruct (subscript _ _ _).
    destruct (update_last_price _); simpl; [|done..]. intros [= <-]. by destruct He.
Qed.

Lemma run_ops_by_price std_sort `{!SorterOk std_sort} thrust_sort ops :
  forall e e', books_by_price e ->
               run_ops std_sort thrust_sort e ops = Ok e' -> books_by_price e'.
Proof.
  induction ops as [|op ops IH]; intros e e' He; simpl.
  - by intros [= <-].
  - destruct (apply_op _ _ e op) as [e1| | |] eqn:E; simpl; [|done..].
    intros Hrun. eapply IH; [|exact Hrun]. by eapply apply_op_by_price.
Qed.

(** C7, as the code has it: whatever the sorting routines do with
    equivalent elements, after any sequence of operations every bid book is
    in non-increasing and every ask book in non-decreasing [limit_price]
    order.  ([created] is not part of the comparators.) *)
Theorem books_stay_ordered_by_price
        std_sort `{!SorterOk std_sort} thrust_sort ops e :
  run_ops std_sort thrust_sort empty_engine ops = Ok e ->
  forall slot,
    StronglySorted (fun a b => limit_price b <= limit_price a) (bids_of e slot)
    /\ StronglySorted (fun a b => limit_price a <= limit_price b) (asks_of e slot).
Proof.
  intros Hrun slot.
  pose proof (run_ops_by_price _ _ _ _ _ books_by_price_empty Hrun) as He.
  pose proof (bids_of_by_price e slot He) as Hb.
  pose proof (asks_of_by_price e slot He) as Ha.
  split.
  - eapply StronglySorted_weaken; [|exact Hb]. unfold price_gt. intros; simpl in *; lia.
  - eapply StronglySorted_weaken; [|exact Ha]. unfold price_lt. intros; simpl in *; lia.
Qed.

Lemma ops_two_bids_run :
  exists e,
    run_ops insertion_sorter insertion_sorter empty_engine ops_two_bids = Ok e
    /\ bids_of e 1 = [bid_late_created; bid_early_created].
Proof. eexists. split; [vm_compute; reflexivity|]. by vm_compute. Qed.

Lemma books_stay_ordered_by_price_witness :
  exists e,
    run_ops insertion_sorter insertion_sorter empty_engine ops_five_prices = Ok e
    /\ bids_of e 1 = [bid_at_300; bid_at_200; bid_at_100]
    /\ asks_of e 1 = [ask_at_1100; ask_at_1300]
    /\ StronglySorted (fun a b => limit_price b <= limit_price a) (bids_of e 1)
    /\ StronglySorted (fun a b => limit_price a <= limit_price b) (asks_of e 1).
Proof.
  eexists. split; [vm_compute; reflexivity|].
  split; [vm_compute; reflexivity|].
  split; [vm_compute; reflexivity|].
  eapply (books_stay_ordered_by_price insertion_sorter insertion_sorter ops_five_prices).
  vm_compute; reflexivity.
Defined.

(** C7 as stated fails on the tie-break: two bids at one price rest in their
    order of arrival, the one created later first. *)
Lemma fifo_within_price_counterexample :
  exists e,
    run_ops insertion_sorter insertion_sorter empty_engine ops_two_bids = Ok e
    /\ ~ bids_by_price_time (bids_of e 1).
Proof.
  destruct ops_two_bids_run as (e & Hrun & Hbids). exists e. split; [done|].
  rewrite Hbids. unfold bids_by_price_time. intros Hs.
  apply StronglySorted_cons in Hs as [Hhd _].
  apply Forall_cons in Hhd as [Hbefore _].
  unfold bid_before in Hbefore. simpl in Hbefore. lia.
Qed.

(** ** Routing *)

Lemma addOrder_route std_sort e o now :
  addOrder std_sort e o now =
    if validates e o now then
      match type o with
      | LIMIT | MARKET => addLimitOrder std_sort e o
      | COMMIT_REVEAL => Ok (addCommitRevealOrder e o)
      | AMM_SWAP => executeAMMSwap e o
      | FLASH_COVER => Ok (executeFlashCover e o)
      end
    else Ok (false, e).
Proof.
  unfold addOrder, validates. destruct (ad_slots e !! slot_id o) as [s|]; [|done].
  destruct (targeting_hash o =? slot_targeting_hash s); simpl; [|done].
  destruct (Z.leb_spec now (end_time s)).
  - by replace (now >? end_time s) with false by lia.
  - by replace (now >? end_time s) with true by lia.
Qed.

(** ** The batch auction *)

Lemma NoDup_fmap_inj_on {A B} (f : A -> B) (l : list A) x y :
  NoDup (f <$> l) -> x ∈ l -> y ∈ l -> f x = f y -> x = y.
Proof.
  induction l as [|a l IH]; simpl; [by intros _ ?%elem_of_nil|].
  rewrite NoDup_cons. intros [Ha Hl] Hx Hy Hf.
  apply elem_of_cons in Hx as [->|Hx], Hy as [->|Hy]; try done.
  - destruct Ha. rewrite Hf. by apply list_elem_of_fmap_2.
  - destruct Ha. rewrite <- Hf. by apply list_elem_of_fmap_2.
  - by apply IH.
Qed.

(** A sorter has no freedom on a list whose keys are all different. *)
Lemma sort_with_unique (T : Sorter) `{!SorterOk T} lt (key : Order -> Z) l1 l2 :
  StrictWeak lt ->
  (forall a b, lt a b = false -> lt b a = false -> key a = key b) ->
  l1 ≡ₚ l2 -> NoDup (key <$> l1) ->
  sort_with T lt l1 = sort_with T lt l2.
Proof.
  intros Hsw Hkey Hperm Hdup.
  apply (StronglySorted_unique_strong (fun a b => lt b a = false)).
  - intros x1 x2 Hx1 Hx2 H12 H21.
    apply (NoDup_fmap_inj_on key l1); [done| | |by apply Hkey].
    + by rewrite <- (sort_perm lt l1).
    + by rewrite Hperm, <- (sort_perm lt l2).
  - by apply sort_ordered.
  - by apply sort_ordered.
  - by rewrite !sort_perm.
Qed.

Lemma batch_result_perm thrust_sort `{!SorterOk thrust_sort}
      bids1 asks1 bids2 asks2 :
  bids1 ≡ₚ bids2 -> asks1 ≡ₚ asks2 ->
  NoDup (priority <$> bids1) -> NoDup (priority <$> asks1) ->
  batch_result thrust_sort bids1 asks1 = batch_result thrust_sort bids2 asks2.
Proof.
  intros Hb Ha Hdb Hda. unfold batch_result.
  rewrite (sort_with_unique thrust_sort priority_gt priority bids1 bids2);
    [|apply priority_gt_strict_weak|unfold priority_gt; intros; lia|done..].
  rewrite (sort_with_unique thrust_sort priority_lt priority asks1 asks2);
    [|apply priority_lt_strict_weak|unfold priority_lt; intros; lia|done..].
  by rewrite (Permutation_length Hb).
Qed.

(** What [runBatchAuction] returns, in terms of the two books. *)
Lemma runBatchAuction_result thrust_sort e slot :
  (runBatchAuction thrust_sort e slot).1 =
    match bids_of e slot, asks_of e slot with
    | [], _ | _, [] => mkBatch [] [] [] None
    | bids, asks => batch_result thrust_sort bids asks
    end.
Proof.
  unfold runBatchAuction, bids_of, asks_of. do 2 name_subscript.
  destruct (default [] (bid_books e !! slot)), (default [] (ask_books e !! slot)); done.
Qed.

Lemma runBatchAuction_perm thrust_sort `{!SorterOk thrust_sort} e1 e2 slot :
  bids_of e1 slot ≡ₚ bids_of e2 slot ->
  asks_of e1 slot ≡ₚ asks_of e2 slot ->
  NoDup (priority <$> bids_of e1 slot) ->
  NoDup (priority <$> asks_of e1 slot) ->
  (runBatchAuction thrust_sort e1 slot).1 = (runBatchAuction thrust_sort e2 slot).1.
Proof.
  intros Hb Ha Hdb Hda. rewrite !runBatchAuction_result.
  pose proof (batch_result_perm thrust_sort _ _ _ _ Hb Ha Hdb Hda) as Hres.
  destruct (bids_of e1 slot) as [|b1 l1], (bids_of e2 slot) as [|b2 l2];
    try (by apply Permutation_nil_cons in Hb);
    try (symmetry in Hb; by apply Permutation_nil_cons in Hb); [done|].
  destruct (asks_of e1 slot) as [|a1 m1], (asks_of e2 slot) as [|a2 m2];
    try (by apply Permutation_nil_cons in Ha);
    try (symmetry in Ha; by apply Permutation_nil_cons in Ha); done.
Qed.

Lemma validates_ad_slots e e' o now :
  ad_slots e' = ad_slots e -> validates e' o now = validates e o now.
Proof. unfold validates. by intros ->. Qed.

Lemma resting_on_ad_slots e e' now slot buy os :
  ad_slots e' = ad_slots e -> resting_on e' now slot buy os = resting_on e now slot buy os.
Proof.
  intros Hs. unfold resting_on. induction os as [|o os IH]; [done|].
  rewrite !filter_cons, IH, (validates_ad_slots e e' o now Hs). done.
Qed.

Lemma bids_of_book_inserted std_sort `{!SorterOk std_sort} e o slot :
  bids_of (book_inserted std_sort e o) slot
  ≡ₚ bids_of e slot ++ (if decide (slot_id o = slot /\ is_buy o = true) then [o] else []).
Proof.
  unfold book_inserted, bids_of. destruct (is_buy o); simpl.
  - destruct (decide (slot_id o = slot)) as [<-|Hne].
    + rewrite lookup_insert_eq. simpl. rewrite sort_perm.
      by rewrite decide_True.
    + rewrite lookup_insert_ne by done. rewrite decide_False by tauto.
      by rewrite app_nil_r.
  - rewrite decide_False by (intros [_ ?]; done). by rewrite app_nil_r.
Qed.

Lemma asks_of_book_inserted std_sort `{!SorterOk std_sort} e o slot :
  asks_of (book_inserted std_sort e o) slot
  ≡ₚ asks_of e slot ++ (if decide (slot_id o = slot /\ is_buy o = false) then [o] else []).
Proof.
  unfold book_inserted, asks_of. destruct (is_buy o); simpl.
  - rewrite decide_False by (intros [_ ?]; done). by rewrite app_nil_r.
  - destruct (decide (slot_id o = slot)) as [<-|Hne].
    + rewrite lookup_insert_eq. simpl. rewrite sort_perm.
      by rewrite decide_True.
    + rewrite lookup_insert_ne by done. rewrite decide_False by tauto.
      by rewrite app_nil_r.
Qed.

(** A [LIMIT] order rests where it is sent, if it is accepted. *)
Lemma limit_submission_books std_sort `{!SorterOk std_sort} e o now b e' :
  type o = LIMIT -> addOrder std_sort e o now = Ok (b, e') ->
  ad_slots e' = ad_slots e
  /\ forall slot,
      bids_of e' slot ≡ₚ bids_of e slot ++ resting_on e now slot true [o]
      /\ asks_of e' slot ≡ₚ asks_of e slot ++ resting_on e now slot false [o].
Proof.
  intros Hty. rewrite addOrder_route, Hty. unfold resting_on.
  destruct (validates e o now) eqn:Hv.
  - rewrite addLimitOrder_unfold, Hty. intros [= <- <-].
    split; [apply book_inserted_frame|]. intros slot.
    pose proof (bids_of_book_inserted std_sort e o slot) as Hb.
    pose proof (asks_of_book_inserted std_sort e o slot) as Ha.
    rewrite Hb, Ha, !filter_cons, !filter_nil.
    split; repeat case_decide; try done; tauto.
  - intros [= <- <-]. split; [done|]. intros slot.
    rewrite !filter_cons_False by (intros [? _]; congruence).
    by rewrite !filter_nil, !app_nil_r.
Qed.

Lemma limit_submissions_books std_sort `{!SorterOk std_sort} thrust_sort now os :
  forall e e',
    Forall (fun o => type o = LIMIT) os ->
    run_ops std_sort thrust_sort e (submissions os now) = Ok e' ->
    ad_slots e' = ad_slots e
    /\ forall slot,
        bids_of e' slot ≡ₚ bids_of e slot ++ resting_on e now slot true os
        /\ asks_of e' slot ≡ₚ asks_of e slot ++ resting_on e now slot false os.
Proof.
  induction os as [|o os IH]; intros e e' Hty; simpl.
  - intros [= <-]. split; [done|]. intros slot. unfold resting_on.
    by rewrite !filter_nil, !app_nil_r.
  - apply Forall_cons in Hty as [Ho Hos].
    destruct (addOrder std_sort e o now) as [[b e1]| | |] eqn:E; simpl; [|done..].
    intros Hrun.
    destruct (limit_submission_books _ _ _ _ _ _ Ho E) as [Hs1 Hb1].
    destruct (IH _ _ Hos Hrun) as [Hs Hb].
    split; [congruence|]. intros slot.
    destruct (Hb slot) as [-> ->]. destruct (Hb1 slot) as [-> ->].
    rewrite !(resting_on_ad_slots e e1) by done.
    unfold resting_on. rewrite !filter_cons, !filter_nil.
    split; case_decide; by rewrite <- ?app_assoc.
Qed.

(** C5, as the code has it: when no two bids and no two asks of the slot
    share a [priority()], the arrival order of the resting orders does not
    change what [runBatchAuction] returns: the same matches, the same
    (placeholder) clearing prices. *)
Theorem batch_auction_arrival_independent
        std_sort `{!SorterOk std_sort} thrust_sort `{!SorterOk thrust_sort}
        e os1 os2 now e1 e2 slot :
  Forall (fun o => type o = LIMIT) os1 ->
  os1 ≡ₚ os2 ->
  run_ops std_sort thrust_sort e (submissions os1 now) = Ok e1 ->
  run_ops std_sort thrust_sort e (submissions os2 now) = Ok e2 ->
  NoDup (priority <$> bids_of e1 slot) ->
  NoDup (priority <$> asks_of e1 slot) ->
  (runBatchAuction thrust_sort e1 slot).1 = (runBatchAuction thrust_sort e2 slot).1.
Proof.
  intros Hty Hperm Hrun1 Hrun2 Hdb Hda.
  assert (Forall (fun o => type o = LIMIT) os2) as Hty2 by by rewrite <- Hperm.
  destruct (limit_submissions_books _ _ _ _ _ _ Hty Hrun1) as [_ H1].
  destruct (limit_submissions_books _ _ _ _ _ _ Hty2 Hrun2) as [_ H2].
  destruct (H1 slot) as [Hb1 Ha1]. destruct (H2 slot) as [Hb2 Ha2].
  apply runBatchAuction_perm; try done.
  - rewrite Hb1, Hb2. unfold resting_on. by rewrite Hperm.
  - rewrite Ha1, Ha2. unfold resting_on. by rewrite Hperm.
Qed.

Lemma batch_auction_arrival_independent_witness :
  exists e1 e2,
    run_ops insertion_sorter insertion_sorter engine_S1
            (submissions six_orders 10) = Ok e1
    /\ run_ops insertion_sorter insertion_sorter engine_S1
               (submissions (reverse six_orders) 10) = Ok e2
    /\ asks_of e1 1 = [ask_1000_early; ask_1000_late; ask_1100_first]
    /\ asks_of e2 1 = [ask_1000_late; ask_1000_early; ask_1100_first]
    /\ bids_of e1 1 = [bid_1500_early; bid_1500_late; bid_1200_last]
    /\ bids_of e2 1 = [bid_1500_late; bid_1500_early; bid_1200_last]
    /\ (runBatchAuction insertion_sorter e1 1).1
       = (runBatchAuction insertion_sorter e2 1).1
    /\ length (matches (runBatchAuction insertion_sorter e1 1).1) = 3%nat.
Proof.
  eexists _, _. split; [vm_compute; reflexivity|].
  split; [vm_compute; reflexivity|].
  split; [vm_compute; reflexivity|].
  split; [vm_compute; reflexivity|].
  split; [vm_compute; reflexivity|].
  split; [vm_compute; reflexivity|].
  split; [|vm_compute; reflexivity].
  eapply (batch_auction_arrival_independent
            insertion_sorter insertion_sorter engine_S1
            six_orders (reverse six_orders) 10).
  - repeat constructor.
  - symmetry. apply reverse_Permutation.
  - vm_compute; reflexivity.
  - vm_compute; reflexivity.
  - apply (bool_decide_unpack _). vm_compute. exact I.
  - apply (bool_decide_unpack _). vm_compute. exact I.
Defined.

(** C5 as stated fails on equal priorities: the same three resting orders,
    the twin asks swapped on arrival, and the bid is matched with the one
    ask or with the other. *)
Lemma batch_auction_arrival_counterexample :
  exists e1 e2,
    [ask_twin_1; ask_twin_2; bid_crossing] ≡ₚ [ask_twin_2; ask_twin_1; bid_crossing]
    /\ run_ops insertion_sorter insertion_sorter engine_S1
               (submissions [ask_twin_1; ask_twin_2; bid_crossing] 10) = Ok e1
    /\ run_ops insertion_sorter insertion_sorter engine_S1
               (submissions [ask_twin_2; ask_twin_1; bid_crossing] 10) = Ok e2
    /\ matches (runBatchAuction insertion_sorter e1 1).1 = [(3, 1)]
    /\ matches (runBatchAuction insertion_sorter e2 1).1 = [(3, 2)]
    /\ (runBatchAuction insertion_sorter e1 1).1
       <> (runBatchAuction insertion_sorter e2 1).1.
Proof.
  eexists _, _. split; [apply Permutation_swap|].
  split; [vm_compute; reflexivity|]. split; [vm_compute; reflexivity|].
  split; [vm_compute; reflexivity|]. split; [vm_compute; reflexivity|].
  intros H. apply (f_equal matches) in H. vm_compute in H. discriminate.
Qed.

(** ** Pre-routing validation *)

Lemma validates_spec e o now :
  validates e o now = true <->
  exists s, ad_slots e !! slot_id o = Some s
            /\ targeting_hash o = slot_targeting_hash s
            /\ now <= end_time s.
Proof.
  unfold validates. destruct (ad_slots e !! slot_id o) as [s|]; split.
  - intros [?%Z.eqb_eq ?%Z.leb_le]%andb_true_iff. eauto.
  - intros (s' & [= <-] & ? & ?). apply andb_true_iff. split; lia.
  - done.
  - by intros (? & ? & _).
Qed.

(** C6, as the code has it: [addOrder] turns an order away, with a plain
    [false] and an engine left as it was, exactly when the slot is unknown,
    the targeting hashes differ or the slot's [end_time] has passed; an order
    that is not a swap and passes these three checks is accepted.  The
    quantity and the expiry of the order are not looked at. *)
Theorem addOrder_validation std_sort e o now :
  (validates e o now = false -> addOrder std_sort e o now = Ok (false, e))
  /\ (validates e o now = true -> type o <> AMM_SWAP ->
      exists e', addOrder std_sort e o now = Ok (true, e'))
  /\ (validates e o now = true <->
      exists s, ad_slots e !! slot_id o = Some s
                /\ targeting_hash o = slot_targeting_hash s
                /\ now <= end_time s)
  /\ (forall q x, validates e (set_expires (set_quantity o q) x) now
                  = validates e o now).
Proof.
  rewrite addOrder_route. repeat split.
  - by intros ->.
  - intros -> Hty. destruct (type o); try done.
    + apply addLimitOrder_returns.
    + apply addLimitOrder_returns.
    + unfold addCommitRevealOrder. destruct (subscript _ _ _). eauto.
    + unfold executeFlashCover. eauto.
  - apply validates_spec.
  - apply validates_spec.
Qed.

Lemma addOrder_validation_witness :
  addOrder insertion_sorter empty_engine bid_empty_expired 10
    = Ok (false, empty_engine)
  /\ exists e', addOrder insertion_sorter engine_S1 sealed_bid 10 = Ok (true, e').
Proof.
  split.
  - apply (addOrder_validation insertion_sorter empty_engine bid_empty_expired 10).
    reflexivity.
  - apply (addOrder_validation insertion_sorter engine_S1 sealed_bid 10).
    + reflexivity.
    + discriminate.
Defined.

(** C6 as stated fails: a bid for a quantity of zero, expired before it was
    submitted, is accepted and rests in the book. *)
Lemma zero_quantity_accepted_counterexample :
  exists e',
    addOrder insertion_sorter engine_S1 bid_empty_expired 10 = Ok (true, e')
    /\ bids_of e' 1 = [bid_empty_expired]
    /\ quantity bid_empty_expired = 0
    /\ expires bid_empty_expired < 10.
Proof. eexists. split; [vm_compute; reflexivity|]. by vm_compute. Qed.

(** ** Engine statistics *)

Lemma to_uint32_succ n : to_uint32 (to_uint32 n + 1) = to_uint32 (n + 1).
Proof. unfold to_uint32. apply Zplus_mod_idemp_l. Qed.

Lemma getSwapPrice_zero_pool q buy : getSwapPrice zero_pool q buy = Ok 0.
Proof. done. Qed.

(** C9: a swap on a slot that has no pool fails, and leaves a pool of zero
    reserves behind; the pool count of [getStats] goes up by one. *)
Theorem swap_without_pool_leaves_entry std_sort e o now :
  amm_pools e !! slot_id o = None ->
  type o = AMM_SWAP ->
  validates e o now = true ->
  exists e',
    addOrder std_sort e o now = Ok (false, e')
    /\ e' = with_amm_pools e (<[slot_id o := zero_pool]> (amm_pools e))
    /\ size (amm_pools e') = S (size (amm_pools e))
    /\ stat_active_pools (getStats e')
       = to_uint32 (stat_active_pools (getStats e) + 1).
Proof.
  intros Hnone Hty Hv. rewrite addOrder_route, Hv, Hty.
  unfold executeAMMSwap, subscript. rewrite Hnone.
  rewrite getSwapPrice_zero_pool. simpl.
  eexists. split; [done|]. split; [done|]. simpl.
  rewrite map_size_insert_None by done. split; [done|].
  rewrite to_uint32_succ. f_equal. lia.
Qed.

Lemma swap_without_pool_leaves_entry_witness :
  exists e',
    addOrder insertion_sorter engine_S1 (swap_buy 10) 10 = Ok (false, e')
    /\ stat_active_pools (getStats engine_S1) = 0
    /\ stat_active_pools (getStats e') = 1.
Proof.
  destruct (swap_without_pool_leaves_entry insertion_sorter engine_S1 (swap_buy 10) 10)
    as (e' & Hadd & -> & _ & Hstat); [reflexivity..|].
  eexists. split; [exact Hadd|]. split; [reflexivity|]. exact Hstat.
Defined.

(** C10: [total_orders] moves, by one, on an accepted [LIMIT] or [MARKET]
    order and on nothing else that [addOrder] does. *)
Theorem total_orders_counts_book_orders std_sort e o now b e' :
  addOrder std_sort e o now = Ok (b, e') ->
  (type o = COMMIT_REVEAL \/ type o = AMM_SWAP \/ type o = FLASH_COVER ->
   stat_total_orders (getStats e') = stat_total_orders (getStats e))
  /\ (b = false -> stat_total_orders (getStats e') = stat_total_orders (getStats e))
  /\ (b = true -> type o = LIMIT \/ type o = MARKET ->
      stat_total_orders (getStats e')
      = to_uint64 (stat_total_orders (getStats e) + 1)).
Proof.
  rewrite addOrder_route. simpl. destruct (validates e o now).
  - destruct (type o) eqn:Hty.
    + intros H. apply addLimitOrder_frame in H as (-> & _ & _ & _ & _ & ->).
      repeat split; try done. intros [?|[?|?]]; done.
    + intros H. apply addLimitOrder_frame in H as (-> & _ & _ & _ & _ & ->).
      repeat split; try done. intros [?|[?|?]]; done.
    + unfold addCommitRevealOrder. destruct (subscript _ _ _). intros [= <- <-].
      repeat split; try done. intros _ [?|?]; done.
    + intros H. apply executeAMMSwap_frame in H as (_ & _ & _ & _ & _ & -> & _).
      repeat split; try done. intros _ [?|?]; done.
    + intros [= <- <-]. repeat split; try done. intros _ [?|?]; done.
  - intros [= <- <-]. repeat split; done.
Qed.

Lemma total_orders_counts_book_orders_witness :
  exists e',
    addOrder insertion_sorter engine_S1 sealed_bid 10 = Ok (true, e')
    /\ stat_total_orders (getStats e') = stat_total_orders (getStats engine_S1).
Proof.
  eexists. split; [vm_compute; reflexivity|].
  refine (proj1 (total_orders_counts_book_orders
                   insertion_sorter engine_S1 sealed_bid 10 true _ _) _).
  - vm_compute; reflexivity.
  - left. reflexivity.
Defined.

(** ** Commit and reveal *)

Lemma committed_subscript e slot :
  (subscript (commit_phase_orders e) slot []).1 = committed e slot.
Proof. apply subscript_fst. Qed.

(** X23.  What [revealBid] checks: it succeeds exactly when a deadline is
    on record for the slot, has not passed, and an order of that id is among
    the slot's committed ones. *)
Lemma revealBid_succeeds_iff e slot oid p nonce now :
  (revealBid e slot oid p nonce now).1 = true <->
  exists deadline o,
    reveal_deadlines e !! slot = Some deadline /\ now <= deadline
    /\ o ∈ committed e slot /\ order_id o = oid.
Proof.
  unfold revealBid, committed.
  destruct (reveal_deadlines e !! slot) as [d|]; [|split; [done|by intros (?&?&?&_)]].
  destruct (Z.leb_spec now d) as [Hle|Hgt].
  - replace (now >? d) with false by lia. name_subscript.
    destruct (list_find _ _) as [[i o]|] eqn:Hfind; simpl.
    + apply list_find_Some in Hfind as (Hi & Hid & _). split; [|done].
      intros _. exists d, o. repeat split; try done.
      by eapply list_elem_of_lookup_2.
    + split; [done|]. intros (d' & o & _ & _ & Ho & Hid).
      apply list_find_None in Hfind. rewrite Forall_forall in Hfind.
      by destruct (Hfind o Ho).
  - replace (now >? d) with true by lia. split; [done|].
    intros (d' & o & [= <-] & ? & _). lia.
Qed.

(** X24.  A reveal that fails leaves the committed orders of every slot as
    they were. *)
Lemma revealBid_failure_frame e slot oid p nonce now e' :
  revealBid e slot oid p nonce now = (false, e') ->
  forall s, committed e' s = committed e s.
Proof.
  unfold revealBid, committed.
  destruct (reveal_deadlines e !! slot) as [d|]; [|by intros [= <-]].
  destruct (now >? d); [by intros [= <-]|].
  unfold subscript. destruct (commit_phase_orders e !! slot) as [l|] eqn:El.
  - destruct (list_find _ _) as [[i o]|]; [done|]. by intros [= <-].
  - simpl. intros [= <-] s. simpl.
    destruct (decide (slot = s)) as [<-|Hne].
    + by rewrite lookup_insert_eq, El.
    + by rewrite lookup_insert_ne.
Qed.

(** C1 on the code: a reveal whose price and nonce do not hash to the
    stored commitment is accepted all the same, and marks the order
    revealed at that price.  Whatever the hash function, [revealBid] never
    applies it. *)
Theorem revealBid_accepts_mismatched_hash
        (hash : string -> string) e slot oid p nonce now deadline i o :
  reveal_deadlines e !! slot = Some deadline ->
  now <= deadline ->
  list_find (fun o => order_id o = oid) (committed e slot) = Some (i, o) ->
  hash (reveal_data p nonce) <> commit_hash o ->
  exists e',
    revealBid e slot oid p nonce now = (true, e')
    /\ committed e' slot = <[i := set_revealed o p]> (committed e slot).
Proof.
  intros Hd Hnow Hfind _. unfold revealBid. rewrite Hd.
  replace (now >? deadline) with false by lia.
  pose proof (committed_subscript e slot) as Hc.
  destruct (subscript _ _ _) as [orders m]. simpl in Hc. subst orders.
  rewrite Hfind. eexists. split; [done|].
  unfold committed at 1. simpl. by rewrite lookup_insert_eq.
Qed.

(** The commitment is to ["1500nonce-1"]; the reveal is of 9999. *)
Lemma revealBid_accepts_mismatched_hash_witness :
  exists e',
    revealBid (engine_sealed "1500nonce-1") 1 7 9999 "x" 50 = (true, e')
    /\ committed e' 1 = [set_revealed (sealed_order "1500nonce-1") 9999].
Proof.
  apply (revealBid_accepts_mismatched_hash
           (fun s => s) (engine_sealed "1500nonce-1") 1 7 9999 "x" 50
           100000000 0%nat (sealed_order "1500nonce-1")).
  - reflexivity.
  - lia.
  - reflexivity.
  - vm_compute. discriminate.
Defined.

(** ** Pool arithmetic *)

(** A swap that empties the supply side does not fail: it divides by zero. *)
Lemma executeAMMSwap_empty_supply e o amt :
  let pool := (subscript (amm_pools e) (slot_id o) zero_pool).1 in
  getSwapPrice pool (quantity o) (is_buy o) = Ok amt ->
  0 < amt ->
  reserve_supply (swap_reserves pool o amt) = 0 ->
  executeAMMSwap e o = DivByZero.
Proof.
  simpl. unfold executeAMMSwap. destruct (subscript _ _ _) as [pool pools]. simpl.
  intros -> Hamt Hzero. simpl.
  replace (amt <=? 0) with false by lia.
  unfold update_last_price. by rewrite Hzero.
Qed.

Lemma getSwapPrice_in_range p q buy :
  pool_in_range p q ->
  getSwapPrice p q buy =
    Ok (if buy
        then reserve_ausd p - reserve_product p / (reserve_supply p + q)
        else reserve_supply p - reserve_product p / (reserve_ausd p + q)).
Proof.
  unfold pool_in_range, max_int64, getSwapPrice, reserve_product.
  intros (HA & HS & Hq & Hk & HSq & HAq).
  set (A := reserve_ausd p) in *. set (S := reserve_supply p) in *.
  assert (0 < A * S) by nia.
  replace (A =? 0) with false by lia. replace (S =? 0) with false by lia. simpl.
  rewrite (to_uint64_id A) by (unfold is_uint64; nia).
  rewrite (to_uint64_id (A * S)) by (unfold is_uint64; lia).
  rewrite (to_int64_id (A * S)) by (unfold is_int64, min_int64, max_int64; lia).
  rewrite (to_uint64_id (A * S)) by (unfold is_uint64; lia).
  destruct buy.
  - rewrite (to_uint64_id (S + q)) by (unfold is_uint64; lia).
    replace (S + q =? 0) with false by lia.
    assert (0 <= A * S / (S + q) <= A).
    { split; [apply Z.div_pos; lia|].
      apply Z.div_le_upper_bound; [lia|nia]. }
    rewrite (to_int64_id (A * S / (S + q)))
      by (unfold is_int64, min_int64, max_int64; nia).
    rewrite to_int64_id by (unfold is_int64, min_int64, max_int64; nia). done.
  - rewrite (to_uint64_id (A + q)) by (unfold is_uint64; lia).
    rewrite (to_int64_id (A + q)) by (unfold is_int64, min_int64, max_int64; lia).
    replace (A + q =? 0) with false by lia.
    replace (A * S =? min_int64) with false by (unfold min_int64; lia). simpl.
    rewrite Z.quot_div_nonneg by lia.
    assert (0 <= A * S / (A + q) <= S).
    { split; [apply Z.div_pos; lia|].
      apply Z.div_le_upper_bound; [lia|nia]. }
    rewrite (to_uint64_id (A * S / (A + q))) by (unfold is_uint64; nia).
    rewrite (to_uint64_id (S - _)) by (unfold is_uint64; nia).
    rewrite to_int64_id by (unfold is_int64, min_int64, max_int64; nia). done.
Qed.

(** No operation but a swap or a deposit of liquidity writes to a pool. *)
Lemma apply_op_leaves_pools std_sort thrust_sort e op e' :
  leaves_pools op -> apply_op std_sort thrust_sort e op = Ok e' ->
  amm_pools e' = amm_pools e.
Proof.
  destruct op; simpl; try done.
  - intros _. unfold registerAdSlot. by destruct (ad_slots e !! _); intros [= <-].
  - intros Hty. rewrite addOrder_route. destruct (validates e o now); simpl.
    + destruct (type o) eqn:Ety; try done; simpl.
      * destruct (addLimitOrder _ _ _) as [[b e1]| | |] eqn:E; simpl; [|done..].
        intros [= <-]. by apply addLimitOrder_frame in E as (_ & _ & -> & _).
      * destruct (addLimitOrder _ _ _) as [[b e1]| | |] eqn:E; simpl; [|done..].
        intros [= <-]. by apply addLimitOrder_frame in E as (_ & _ & -> & _).
      * unfold addCommitRevealOrder. destruct (subscript _ _ _). by intros [= <-].
      * by intros [= <-].
    + by intros [= <-].
  - intros _. unfold runBatchAuction.
    destruct (subscript (bid_books e) _ _) as [bids bb].
    destruct (subscript (ask_books e) _ _) as [asks ab].
    by destruct bids, asks; intros [= <-].
  - by intros _ [= <-].
  - intros _. unfold revealBid. destruct (reveal_deadlines e !! _); [|by intros [= <-]].
    destruct (now >? _); [by intros [= <-]|].
    destruct (subscript _ _ _). by destruct (list_find _ _) as [[??]|]; intros [= <-].
Qed.

(** The reserves a quote is computed for.  On a pool with both reserves
    positive and arithmetic inside 64 bits, the pair of reserves inside
    [getSwapPrice] (the side paid in enlarged by [quantity_in], the other
    reduced by the quote) has a product that is at most the product before,
    short of it by less than the enlarged reserve.  Pools are written to by
    swaps and by [addLiquidity] only. *)
Lemma quote_product_within_rounding :
  (forall p q buy,
      pool_in_range p q ->
      exists out,
        getSwapPrice p q buy = Ok out /\ 0 <= out
        /\ let new_ausd := if buy then reserve_ausd p - out else reserve_ausd p + q in
           let new_supply := if buy then reserve_supply p + q else reserve_supply p - out in
           new_ausd * new_supply <= reserve_product p
           /\ reserve_product p
              < new_ausd * new_supply + (if buy then new_supply else new_ausd))
  /\ (forall std_sort thrust_sort e op e',
        leaves_pools op -> apply_op std_sort thrust_sort e op = Ok e' ->
        amm_pools e' = amm_pools e).
Proof.
  split; [|apply apply_op_leaves_pools].
  intros p q buy Hr. rewrite (getSwapPrice_in_range p q buy Hr).
  eexists. split; [done|].
  destruct Hr as (HA & HS & Hq & Hk & HSq & HAq). unfold reserve_product.
  set (A := reserve_ausd p) in *. set (S := reserve_supply p) in *.
  destruct buy; simpl.
  - pose proof (Z.mul_div_le (A * S) (S + q) ltac:(lia)).
    pose proof (Z.mul_succ_div_gt (A * S) (S + q) ltac:(lia)).
    assert (A * S / (S + q) <= A) by (apply Z.div_le_upper_bound; [lia|nia]).
    replace (A - (A - A * S / (S + q))) with (A * S / (S + q)) by lia.
    repeat split; nia.
  - pose proof (Z.mul_div_le (A * S) (A + q) ltac:(lia)).
    pose proof (Z.mul_succ_div_gt (A * S) (A + q) ltac:(lia)).
    assert (A * S / (A + q) <= S) by (apply Z.div_le_upper_bound; [lia|nia]).
    replace (S - (S - A * S / (A + q))) with (A * S / (A + q)) by lia.
    repeat split; nia.
Qed.

(** Scenario 4 through [addOrder]: on the pool of 1000000 AUSD against 1000
    impressions a sell of 10000 is quoted 10 and leaves the reserves at
    999990 and 11000, whose product is not below the 1000000000 before. *)
Lemma scenario_4_swap :
  getSwapPrice pool_scenario_4 10000 false = Ok 10
  /\ swap_reserves pool_scenario_4 (order_on_S1 6 AMM_SWAP false 0 10000 1 2000000000) 10
     = mkPool 0 999990 11000 1000
  /\ reserve_product pool_scenario_4 <= 999990 * 11000.
Proof. split; [reflexivity|]. split; [reflexivity|]. by vm_compute. Qed.

(** C3 on the code: [executeAMMSwap] asks [getSwapPrice] for the quote with
    [buy_ausd = is_buy], that is AUSD out for impressions in, and then adds
    the quantity to [reserve_ausd] and takes the quote from
    [reserve_supply].  On the pool that [addLiquidity (1, 1000, 100)]
    leaves, a buy of 10 is quoted 91, is accepted, and leaves the reserves
    at 1010 and 9: the product is 9090 where it was 100000. *)
Theorem swap_shrinks_reserve_product :
  addLiquidity engine_S1 1 1000 100 = Ok (true, engine_pool)
  /\ amm_pools engine_pool !! 1 = Some (mkPool 0 1000 100 10)
  /\ getSwapPrice (mkPool 0 1000 100 10) 10 true = Ok 91
  /\ exists e' pool',
      addOrder insertion_sorter engine_pool (swap_buy 10) 10 = Ok (true, e')
      /\ amm_pools e' !! 1 = Some pool'
      /\ reserve_ausd pool' = 1010 /\ reserve_supply pool' = 9
      /\ reserve_product (mkPool 0 1000 100 10) = 100000
      /\ reserve_product pool' = 9090
      /\ ~ reserve_product pool' >= reserve_product (mkPool 0 1000 100 10).
Proof.
  split; [by vm_compute|]. split; [by vm_compute|]. split; [reflexivity|].
  eexists _, _. split; [vm_compute; reflexivity|].
  split; [vm_compute; reflexivity|]. by vm_compute.
Qed.

(** C8 on the code: on the same pool a buy of 11 is quoted 100, the supply
    reserve comes to 0, and [last_price] is computed by dividing by it. *)
Theorem swap_divides_by_zero :
  getSwapPrice (mkPool 0 1000 100 10) 11 true = Ok 100
  /\ reserve_supply (swap_reserves (mkPool 0 1000 100 10) (swap_buy 11) 100) = 0
  /\ addOrder insertion_sorter engine_pool (swap_buy 11) 10 = DivByZero.
Proof. split; [reflexivity|]. split; [reflexivity|]. vm_compute; reflexivity. Qed.

(** ** Ties, for every comparison sort *)

Lemma sort_with_singleton T `{!SorterOk T} lt x : sort_with T lt [x] = [x].
Proof. apply Permutation_singleton_r, sort_perm. Qed.

Lemma sort_with_pair T `{!SorterOk T} lt x y :
  sort_with T lt [x; y] = [x; y] \/ sort_with T lt [x; y] = [y; x].
Proof.
  pose proof (sort_perm lt [x; y]) as Hp. symmetry in Hp.
  by apply Permutation_length_2_inv in Hp.
Qed.

Lemma swap_orders_limit_price x y o :
  limit_price x = limit_price y ->
  limit_price (swap_orders x y o) = limit_price o.
Proof. intros Hxy. unfold swap_orders. repeat case_decide; by subst. Qed.

Lemma swap_orders_priority x y o :
  limit_price x = limit_price y -> created x = created y ->
  priority (swap_orders x y o) = priority o.
Proof.
  intros Hp Hc. unfold swap_orders, priority.
  repeat case_decide; subst; by rewrite ?Hp, ?Hc.
Qed.

Lemma limit_order_rests std_sort e o now :
  validates e o now = true -> type o = LIMIT ->
  addOrder std_sort e o now = Ok (true, book_inserted std_sort e o).
Proof.
  intros Hv Hty. by rewrite addOrder_route, Hv, Hty, addLimitOrder_unfold, Hty.
Qed.

Lemma validates_book_inserted std_sort e o o' now :
  validates (book_inserted std_sort e o) o' now = validates e o' now.
Proof. apply validates_ad_slots, book_inserted_frame. Qed.

Lemma book_inserted_bid std_sort e o :
  is_buy o = true ->
  bids_of (book_inserted std_sort e o) (slot_id o)
  = sort_with std_sort price_gt (bids_of e (slot_id o) ++ [o])
  /\ forall slot, asks_of (book_inserted std_sort e o) slot = asks_of e slot.
Proof.
  intros Hbuy. unfold book_inserted, bids_of, asks_of. rewrite Hbuy. simpl.
  by rewrite lookup_insert_eq.
Qed.

Lemma book_inserted_ask std_sort e o :
  is_buy o = false ->
  asks_of (book_inserted std_sort e o) (slot_id o)
  = sort_with std_sort price_lt (asks_of e (slot_id o) ++ [o])
  /\ forall slot, bids_of (book_inserted std_sort e o) slot = bids_of e slot.
Proof.
  intros Hbuy. unfold book_inserted, bids_of, asks_of. rewrite Hbuy. simpl.
  by rewrite lookup_insert_eq.
Qed.

(** Two resting bids on [S1]: the book is what [std::sort] makes of them. *)
Lemma two_bids_book std_sort thrust_sort `{!SorterOk std_sort} x y now1 now2 :
  validates engine_S1 x now1 = true -> validates engine_S1 y now2 = true ->
  type x = LIMIT -> type y = LIMIT -> is_buy x = true -> is_buy y = true ->
  slot_id x = 1 -> slot_id y = 1 ->
  exists e,
    run_ops std_sort thrust_sort empty_engine
            [OpRegisterAdSlot slot_S1; OpAddOrder x now1; OpAddOrder y now2] = Ok e
    /\ bids_of e 1 = sort_with std_sort price_gt [x; y].
Proof.
  intros Hvx Hvy Htx Hty Hbx Hby Hsx Hsy.
  exists (book_inserted std_sort (book_inserted std_sort engine_S1 x) y). split.
  - cbn [run_ops apply_op]. change (registerAdSlot empty_engine slot_S1).2 with engine_S1.
    cbn [mbind result_bind].
    rewrite (limit_order_rests std_sort engine_S1 x now1) by done.
    cbn [mbind result_bind snd].
    rewrite limit_order_rests; [done| |done].
    by rewrite validates_book_inserted.
  - destruct (book_inserted_bid std_sort (book_inserted std_sort engine_S1 x) y Hby)
      as [Hb _].
    destruct (book_inserted_bid std_sort engine_S1 x Hbx) as [Hb1 _].
    rewrite Hsx in Hb1. rewrite Hsy in Hb. rewrite Hb, Hb1.
    change (bids_of engine_S1 1) with (@nil Order). simpl.
    by rewrite sort_with_singleton.
Qed.

(** Whatever comparison sort stands for [std::sort], one of the two arrival
    orders of the two bids leaves the later-created bid ahead. *)
Lemma fifo_fails_for_every_sorter
      std_sort thrust_sort `{!SorterOk std_sort} `{!ComparisonSort std_sort} :
  exists ops e,
    (ops = ops_two_bids \/ ops = ops_two_bids_swapped)
    /\ run_ops std_sort thrust_sort empty_engine ops = Ok e
    /\ ~ bids_by_price_time (bids_of e 1).
Proof.
  assert (~ bids_by_price_time [bid_late_created; bid_early_created]) as Hbad.
  { unfold bids_by_price_time. intros Hs.
    apply StronglySorted_cons in Hs as [Hhd _].
    apply Forall_cons in Hhd as [Hbefore _].
    unfold bid_before in Hbefore. simpl in Hbefore. lia. }
  destruct (two_bids_book std_sort thrust_sort bid_late_created bid_early_created 20 30)
    as (e1 & Hrun1 & Hb1); try done.
  destruct (two_bids_book std_sort thrust_sort bid_early_created bid_late_created 20 30)
    as (e2 & Hrun2 & Hb2); try done.
  destruct (sort_with_pair std_sort price_gt bid_late_created bid_early_created)
    as [Hs|Hs].
  - exists ops_two_bids, e1. split; [by left|]. split; [done|]. by rewrite Hb1, Hs.
  - exists ops_two_bids_swapped, e2. split; [by right|]. split; [done|].
    rewrite Hb2.
    change [bid_early_created; bid_late_created]
      with (swap_orders bid_late_created bid_early_created
              <$> [bid_late_created; bid_early_created]).
    rewrite sort_natural, Hs; [done|].
    intros a b. unfold price_gt. by rewrite !swap_orders_limit_price.
Qed.

(** Two resting asks and a bid on [S1]. *)
Lemma two_asks_one_bid_books std_sort thrust_sort `{!SorterOk std_sort} x y b now :
  validates engine_S1 x now = true -> validates engine_S1 y now = true ->
  validates engine_S1 b now = true ->
  type x = LIMIT -> type y = LIMIT -> type b = LIMIT ->
  is_buy x = false -> is_buy y = false -> is_buy b = true ->
  slot_id x = 1 -> slot_id y = 1 -> slot_id b = 1 ->
  exists e,
    run_ops std_sort thrust_sort engine_S1 (submissions [x; y; b] now) = Ok e
    /\ bids_of e 1 = [b]
    /\ asks_of e 1 = sort_with std_sort price_lt [x; y].
Proof.
  intros Hvx Hvy Hvb Htx Hty Htb Hbx Hby Hbb Hsx Hsy Hsb.
  set (e1 := book_inserted std_sort engine_S1 x).
  set (e2 := book_inserted std_sort e1 y).
  exists (book_inserted std_sort e2 b). split; [|split].
  - cbn [submissions fmap list_fmap run_ops apply_op].
    rewrite (limit_order_rests std_sort engine_S1 x now) by done.
    cbn [mbind result_bind snd]. fold e1.
    rewrite (limit_order_rests std_sort e1 y now);
      [|by unfold e1; rewrite validates_book_inserted|done].
    cbn [mbind result_bind snd]. fold e2.
    rewrite (limit_order_rests std_sort e2 b now);
      [done| |done].
    unfold e2, e1. by rewrite !validates_book_inserted.
  - destruct (book_inserted_bid std_sort e2 b Hbb) as [Hb _].
    destruct (book_inserted_ask std_sort e1 y Hby) as [_ Hb2].
    destruct (book_inserted_ask std_sort engine_S1 x Hbx) as [_ Hb1].
    rewrite Hsb in Hb. rewrite Hb. fold e2 in Hb2. rewrite Hb2.
    fold e1 in Hb1. rewrite Hb1.
    change (bids_of engine_S1 1) with (@nil Order). simpl.
    by rewrite sort_with_singleton.
  - destruct (book_inserted_bid std_sort e2 b Hbb) as [_ Ha].
    destruct (book_inserted_ask std_sort e1 y Hby) as [Ha2 _].
    destruct (book_inserted_ask std_sort engine_S1 x Hbx) as [Ha1 _].
    rewrite Ha. rewrite Hsy in Ha2. fold e2 in Ha2. rewrite Ha2.
    rewrite Hsx in Ha1. fold e1 in Ha1. rewrite Ha1.
    change (asks_of engine_S1 1) with (@nil Order). simpl.
    by rewrite sort_with_singleton.
Qed.

(** The matches of a batch with one bid and two asks it crosses: the bid
    with whichever ask the sort put first. *)
Lemma batch_one_bid thrust_sort `{!SorterOk thrust_sort} b asks a1 a2 :
  sort_with thrust_sort priority_lt asks = [a1; a2] ->
  limit_price a1 <= limit_price b -> targeting_hash b = targeting_hash a1 ->
  matches (batch_result thrust_sort [b] asks) = [(order_id b, order_id a1)].
Proof.
  intros Hs Hp Ht. unfold batch_result. cbn [matches].
  rewrite (sort_with_singleton thrust_sort), Hs.
  unfold matchOrdersGPU. simpl.
  replace (limit_price b >=? limit_price a1) with true by lia.
  replace (targeting_hash b =? targeting_hash a1) with true by lia. done.
Qed.

(** Whatever comparison sorts stand for [std::sort] and [thrust::sort],
    swapping the twin asks on arrival changes the ask the bid is matched
    with. *)
Lemma arrival_matters_for_every_sorter
      std_sort thrust_sort
      `{!SorterOk std_sort} `{!ComparisonSort std_sort}
      `{!SorterOk thrust_sort} `{!ComparisonSort thrust_sort} :
  exists e1 e2,
    run_ops std_sort thrust_sort engine_S1
            (submissions [ask_twin_1; ask_twin_2; bid_crossing] 10) = Ok e1
    /\ run_ops std_sort thrust_sort engine_S1
               (submissions [ask_twin_2; ask_twin_1; bid_crossing] 10) = Ok e2
    /\ matches (runBatchAuction thrust_sort e1 1).1
       <> matches (runBatchAuction thrust_sort e2 1).1.
Proof.
  destruct (two_asks_one_bid_books std_sort thrust_sort
              ask_twin_1 ask_twin_2 bid_crossing 10)
    as (e1 & Hrun1 & Hb1 & Ha1); try done.
  destruct (two_asks_one_bid_books std_sort thrust_sort
              ask_twin_2 ask_twin_1 bid_crossing 10)
    as (e2 & Hrun2 & Hb2 & Ha2); try done.
  exists e1, e2. split; [done|]. split; [done|].
  set (g := swap_orders ask_twin_1 ask_twin_2).
  assert (forall a b, price_lt (g a) (g b) = price_lt a b) as Hg_price.
  { intros a b. unfold price_lt, g. by rewrite !swap_orders_limit_price. }
  assert (forall a b, priority_lt (g a) (g b) = priority_lt a b) as Hg_prio.
  { intros a b. unfold priority_lt, g. by rewrite !swap_orders_priority. }
  change [ask_twin_2; ask_twin_1] with (g <$> [ask_twin_1; ask_twin_2]) in Ha2.
  rewrite sort_natural in Ha2 by done.
  set (L := sort_with std_sort price_lt [ask_twin_1; ask_twin_2]) in *.
  pose proof (sort_natural (T := thrust_sort) priority_lt g L Hg_prio) as Hnat.
  assert (sort_with thrust_sort priority_lt L = [ask_twin_1; ask_twin_2]
          \/ sort_with thrust_sort priority_lt L = [ask_twin_2; ask_twin_1]) as HM.
  { apply Permutation_length_2_inv. symmetry.
    rewrite (sort_perm (T := thrust_sort)). apply (sort_perm (T := std_sort)). }
  assert (exists x y, L = [x; y]) as (x & y & HL).
  { unfold L.
    destruct (sort_with_pair std_sort price_lt ask_twin_1 ask_twin_2) as [Hs|Hs];
      rewrite Hs; eauto. }
  rewrite !runBatchAuction_result, Hb1, Hb2, Ha1, Ha2, HL. cbn [fmap list_fmap].
  rewrite <- HL. change [g x; g y] with (g <$> [x; y]). rewrite <- HL.
  destruct HM as [HM|HM]; rewrite HM in Hnat; cbn [fmap list_fmap] in Hnat;
    rewrite (batch_one_bid thrust_sort bid_crossing _ _ _ HM) by done;
    rewrite (batch_one_bid thrust_sort bid_crossing _ _ _ Hnat) by done;
    done.
Qed.

(** ** The scenarios are states of the engine *)

Lemma engine_pool_reachable :
  addLiquidity engine_S1 1 1000 100 = Ok (true, engine_pool).
Proof. by vm_compute. Qed.

Lemma engine_sealed_reachable c :
  addOrder insertion_sorter (startCommitPhase engine_S1 1 100 0).2 (sealed_order c) 0
  = Ok (true, engine_sealed c).
Proof. by vm_compute. Qed.

(** X25.  No operation but [addOrder] moves [total_orders]. *)
Lemma other_operations_keep_total_orders std_sort thrust_sort e op e' :
  (forall o now, op <> OpAddOrder o now) ->
  apply_op std_sort thrust_sort e op = Ok e' ->
  total_orders_processed e' = total_orders_processed e.
Proof.
  intros Hop. destruct op; simpl.
  - unfold registerAdSlot. by destruct (ad_slots e !! _); intros [= <-].
  - by destruct (Hop o now).
  - unfold runBatchAuction.
    destruct (subscript (bid_books e) _ _) as [bids bb].
    destruct (subscript (ask_books e) _ _) as [asks ab].
    by destruct bids, asks; intros [= <-].
  - by intros [= <-].
  - unfold revealBid. destruct (reveal_deadlines e !! _); [|by intros [= <-]].
    destruct (now >? _); [by intros [= <-]|].
    destruct (subscript _ _ _). by destruct (list_find _ _) as [[??]|]; intros [= <-].
  - unfold addLiquidity. destruct (subscript _ _ _).
    destruct (update_last_price _); simpl; [|done..]. by intros [= <-].
Qed.

(** * Further properties of the engine *)

(** ** The matching loop, with its fills *)

(** What holds of the books before the loop and is kept by an iteration
    holds at the exit, where no further iteration is possible; what an
    iteration guarantees of its fill holds of every fill; the fills are
    appended and counted, and there are no more of them than orders. *)
Lemma match_loop_trace (P : list Order -> list Order -> Prop) (Q : Fill -> Prop) :
  (forall bids asks bids' asks' f,
      P bids asks -> match_step bids asks = Some (bids', asks', f) ->
      P bids' asks' /\ Q f) ->
  forall n bids asks tm fs bids' asks' tm' fs',
    P bids asks ->
    match_loop n bids asks tm fs = Ok (bids', asks', tm', fs') ->
    exists new,
      fs' = fs ++ new /\ Forall Q new /\ P bids' asks'
      /\ match_step bids' asks' = None
      /\ (length new + (length bids' + length asks') <= length bids + length asks)%nat
      /\ to_uint64 tm' = to_uint64 (tm + Z.of_nat (length new)).
Proof.
  intros Hstep. induction n as [|n IH];
    intros bids asks tm fs bids' asks' tm' fs' HP; simpl;
    destruct (match_step bids asks) as [[[b1 a1] f]|] eqn:E; try done.
  - intros [= <- <- <- <-]. exists []. rewrite app_nil_r, Z.add_0_r. simpl.
    repeat split; (done || lia || constructor).
  - intros Hloop. destruct (Hstep _ _ _ _ _ HP E) as [HP1 HQ].
    destruct (IH _ _ _ _ _ _ _ _ HP1 Hloop) as (new & -> & HQs & HP' & Hexit & Hlen & Htm).
    exists (f :: new). rewrite <- app_assoc. simpl.
    apply match_step_shrinks in E.
    repeat split; try done; [by constructor|lia|].
    rewrite Htm. unfold to_uint64. rewrite Zplus_mod_idemp_l. f_equal. lia.
  - intros [= <- <- <- <-]. exists []. rewrite app_nil_r, Z.add_0_r. simpl.
    repeat split; (done || lia || constructor).
Qed.

Lemma match_loop_counter_range n :
  forall bids asks tm fs bids' asks' tm' fs',
    is_uint64 tm ->
    match_loop n bids asks tm fs = Ok (bids', asks', tm', fs') ->
    is_uint64 tm'.
Proof.
  induction n as [|n IH]; intros bids asks tm fs bids' asks' tm' fs' Htm; simpl;
    destruct (match_step bids asks) as [[[b2 a2] f]|]; try done;
    try (by intros [= _ _ <- _]).
  apply IH, to_uint64_range.
Qed.

(** X1.  [tryImmedateMatch] always returns.  It emits at most as many
    fills as the two books of the slot hold orders, appends them to the
    record, and adds their number to [total_matches]. *)
Theorem tryImmedateMatch_terminates_and_counts e slot :
  is_uint64 (total_matches e) ->
  exists e' new,
    tryImmedateMatch e slot = Ok e'
    /\ fills e' = fills e ++ new
    /\ (length new <= length (bids_of e slot) + length (asks_of e slot))%nat
    /\ total_matches e' = to_uint64 (total_matches e + Z.of_nat (length new)).
Proof.
  intros Htm.
  destruct (tryImmedateMatch_returns e slot) as (b1 & a1 & tm & fs & Hloop & ->).
  pose proof (match_loop_counter_range _ _ _ _ _ _ _ _ _ Htm Hloop) as Htm'.
  apply (match_loop_trace (fun _ _ => True) (fun _ => True)) in Hloop
      as (new & -> & _ & _ & _ & Hlen & Hcount); [|done..].
  eexists _, new. split; [done|]. simpl. split; [done|]. split; [lia|].
  rewrite <- Hcount. symmetry. by apply to_uint64_id.
Qed.

Lemma engine_crossed_reachable :
  run_ops insertion_sorter insertion_sorter engine_S1
          (submissions [resting_bid; resting_ask_4] 10) = Ok engine_crossed.
Proof. by vm_compute. Qed.

Lemma tryImmedateMatch_terminates_and_counts_witness :
  exists e' new,
    tryImmedateMatch engine_crossed 1 = Ok e'
    /\ fills e' = fills engine_crossed ++ new
    /\ (length new
        <= length (bids_of engine_crossed 1) + length (asks_of engine_crossed 1))%nat
    /\ total_matches e'
       = to_uint64 (total_matches engine_crossed + Z.of_nat (length new)).
Proof.
  apply (tryImmedateMatch_terminates_and_counts engine_crossed 1).
  unfold is_uint64. change (total_matches engine_crossed) with 0. lia.
Defined.

(** X2.  On books ordered by price, [tryImmedateMatch] leaves no bid that
    an ask of the slot could still be matched with: every resting bid is
    strictly below every resting ask. *)
Theorem tryImmedateMatch_uncrosses e slot e' :
  books_by_price e ->
  tryImmedateMatch e slot = Ok e' ->
  forall b a, b ∈ bids_of e' slot -> a ∈ asks_of e' slot ->
              limit_price b < limit_price a.
Proof.
  intros He.
  destruct (tryImmedateMatch_returns e slot) as (b1 & a1 & tm & fs & Hloop & ->).
  intros [= <-].
  apply (match_loop_trace (fun b a => bids_by_price b /\ asks_by_price a)
                          (fun _ => True)) in Hloop
      as (new & _ & _ & [Hb Ha] & Hexit & _).
  - unfold bids_of, asks_of. simpl. rewrite !lookup_insert_eq. simpl.
    intros b a Hbin Hain. unfold match_step in Hexit.
    destruct b1 as [|b0 b1]; [by apply elem_of_nil in Hbin|].
    destruct a1 as [|a0 a1]; [by apply elem_of_nil in Hain|].
    destruct (Z.geb_spec (limit_price b0) (limit_price a0)) as [|Hlt]; [done|].
    unfold bids_by_price, asks_by_price, ordered in Hb, Ha.
    apply StronglySorted_cons in Hb as [Hb _], Ha as [Ha _].
    rewrite Forall_forall in Hb, Ha. unfold price_gt, price_lt in Hb, Ha.
    assert (limit_price b <= limit_price b0).
    { apply elem_of_cons in Hbin as [->|Hbin]; [lia|]. specialize (Hb b Hbin). lia. }
    assert (limit_price a0 <= limit_price a).
    { apply elem_of_cons in Hain as [->|Hain]; [lia|]. specialize (Ha a Hain). lia. }
    lia.
  - intros ????? [??] Hs. split; [|done]. by eapply match_step_ordered.
  - split; [by apply bids_of_by_price | by apply asks_of_by_price].
Qed.

Lemma books_by_price_crossed : books_by_price engine_crossed.
Proof.
  unfold engine_crossed.
  apply (book_inserted_by_price insertion_sorter).
  apply (book_inserted_by_price insertion_sorter).
  change engine_S1 with (registerAdSlot empty_engine slot_S1).2.
  eapply (apply_op_by_price insertion_sorter insertion_sorter empty_engine
            (OpRegisterAdSlot slot_S1)); [apply books_by_price_empty|done].
Qed.

Lemma tryImmedateMatch_uncrosses_witness :
  exists e',
    tryImmedateMatch engine_crossed 1 = Ok e'
    /\ forall b a, b ∈ bids_of e' 1 -> a ∈ asks_of e' 1 ->
                   limit_price b < limit_price a.
Proof.
  eexists. split; [vm_compute; reflexivity|].
  apply (tryImmedateMatch_uncrosses engine_crossed 1).
  - apply books_by_price_crossed.
  - vm_compute; reflexivity.
Defined.

Lemma remainder_of_self l0 :
  Forall (fun o => is_uint64 (quantity o)) l0 -> Forall (remainder_of l0) l0.
Proof.
  rewrite !Forall_forall. intros Hq o Ho. exists o. specialize (Hq o Ho).
  unfold is_uint64 in Hq. repeat split; (done || lia).
Qed.

Lemma remainder_of_set_quantity l0 o m :
  remainder_of l0 o -> 0 <= m <= quantity o ->
  remainder_of l0 (set_quantity o (to_uint64 (quantity o - m))).
Proof.
  intros (o0 & Hin & Hid & Hp & Hq & Hr) Hm. exists o0. simpl.
  rewrite to_uint64_id by (unfold is_uint64; lia). repeat split; (done || lia).
Qed.

(** X3.  No fill goes beyond a limit: every fill of [tryImmedateMatch]
    pairs a bid and an ask of the slot's books, at the ask's limit price,
    which is at most the bid's, for a quantity that neither order falls
    short of. *)
Theorem fills_respect_limits e slot e' :
  Forall (fun o => is_uint64 (quantity o)) (bids_of e slot) ->
  Forall (fun o => is_uint64 (quantity o)) (asks_of e slot) ->
  tryImmedateMatch e slot = Ok e' ->
  exists new,
    fills e' = fills e ++ new
    /\ Forall (fun f =>
                 exists b a,
                   b ∈ bids_of e slot /\ a ∈ asks_of e slot
                   /\ fill_bid_id f = order_id b /\ fill_ask_id f = order_id a
                   /\ fill_price f = limit_price a
                   /\ limit_price a <= limit_price b
                   /\ 0 <= fill_quantity f <= Z.min (quantity b) (quantity a)) new.
Proof.
  intros Hqb Hqa.
  destruct (tryImmedateMatch_returns e slot) as (b1 & a1 & tm & fs & Hloop & ->).
  intros [= <-]. simpl.
  apply (match_loop_trace
           (fun bids asks => Forall (remainder_of (bids_of e slot)) bids
                             /\ Forall (remainder_of (asks_of e slot)) asks)
           (fun f =>
              exists b a,
                b ∈ bids_of e slot /\ a ∈ asks_of e slot
                /\ fill_bid_id f = order_id b /\ fill_ask_id f = order_id a
                /\ fill_price f = limit_price a
                /\ limit_price a <= limit_price b
                /\ 0 <= fill_quantity f <= Z.min (quantity b) (quantity a)))
    in Hloop as (new & -> & HQ & _); [by exists new| |].
  - intros bids asks bids' asks' f [Hb Ha] Hstep. unfold match_step in Hstep.
    destruct bids as [|b bids], asks as [|a asks]; try done.
    destruct (Z.geb_spec (limit_price b) (limit_price a)) as [Hge|]; [|done].
    injection Hstep as <- <- <-.
    apply Forall_cons in Hb as [Hb0 Hb], Ha as [Ha0 Ha].
    pose proof Hb0 as (b0 & Hbin & Hbid & Hbp & Hbq & Hbr).
    pose proof Ha0 as (a0 & Hain & Haid & Hap & Haq & Har).
    split; [split|].
    + case_match; [done|]. apply Forall_cons. split; [|done].
      apply remainder_of_set_quantity; [done|lia].
    + case_match; [done|]. apply Forall_cons. split; [|done].
      apply remainder_of_set_quantity; [done|lia].
    + exists b0, a0. simpl. repeat split; (done || lia).
  - split; by apply remainder_of_self.
Qed.

Lemma fills_respect_limits_witness :
  exists new,
    new = [mkFill 1 8 1000 4]
    /\ Forall (fun f =>
                 exists b a,
                   b ∈ bids_of engine_crossed 1 /\ a ∈ asks_of engine_crossed 1
                   /\ fill_bid_id f = order_id b /\ fill_ask_id f = order_id a
                   /\ fill_price f = limit_price a
                   /\ limit_price a <= limit_price b
                   /\ 0 <= fill_quantity f <= Z.min (quantity b) (quantity a)) new.
Proof.
  destruct (tryImmedateMatch engine_crossed 1) as [e'| | |] eqn:E;
    try (vm_compute in E; discriminate).
  destruct (fills_respect_limits engine_crossed 1 e') as (new & Hnew & Hall).
  - repeat constructor; unfold is_uint64; simpl; lia.
  - repeat constructor; unfold is_uint64; simpl; lia.
  - exact E.
  - exists new. split; [|exact Hall].
    vm_compute in E. injection E as <-. simpl in Hnew.
    change (fills engine_S1) with (@nil Fill) in Hnew. by simpl in Hnew.
Defined.

(** X4.  When every resting quantity of the slot is positive, every fill
    of [tryImmedateMatch] is for a positive quantity, and what stays in the
    books has a positive quantity left. *)
Theorem fills_are_positive e slot e' :
  Forall positive_quantity (bids_of e slot) ->
  Forall positive_quantity (asks_of e slot) ->
  tryImmedateMatch e slot = Ok e' ->
  exists new,
    fills e' = fills e ++ new
    /\ Forall (fun f => 0 < fill_quantity f) new
    /\ Forall positive_quantity (bids_of e' slot)
    /\ Forall positive_quantity (asks_of e' slot).
Proof.
  intros Hqb Hqa.
  destruct (tryImmedateMatch_returns e slot) as (b1 & a1 & tm & fs & Hloop & ->).
  intros [= <-]. simpl.
  apply (match_loop_trace
           (fun bids asks => Forall positive_quantity bids
                             /\ Forall positive_quantity asks)
           (fun f => 0 < fill_quantity f))
    in Hloop as (new & -> & HQ & [Hb Ha] & _).
  - exists new. unfold bids_of, asks_of. simpl. by rewrite !lookup_insert_eq.
  - intros bids asks bids' asks' f [Hb Ha] Hstep. unfold match_step in Hstep.
    destruct bids as [|b bids], asks as [|a asks]; try done.
    destruct (limit_price b >=? limit_price a); [|done].
    injection Hstep as <- <- <-.
    apply Forall_cons in Hb as [Hb0 Hb], Ha as [Ha0 Ha].
    unfold positive_quantity in Hb0, Ha0.
    split; [split|simpl; lia].
    + destruct (Z.eqb_spec (quantity b) (Z.min (quantity b) (quantity a))); [done|].
      apply Forall_cons. split; [|done]. unfold positive_quantity. simpl.
      rewrite to_uint64_id by (unfold is_uint64; lia). lia.
    + destruct (Z.eqb_spec (quantity a) (Z.min (quantity b) (quantity a))); [done|].
      apply Forall_cons. split; [|done]. unfold positive_quantity. simpl.
      rewrite to_uint64_id by (unfold is_uint64; lia). lia.
  - done.
Qed.

Lemma fills_are_positive_witness :
  exists e' new,
    tryImmedateMatch engine_crossed 1 = Ok e'
    /\ fills e' = fills engine_crossed ++ new
    /\ Forall (fun f => 0 < fill_quantity f) new
    /\ Forall positive_quantity (bids_of e' 1).
Proof.
  destruct (tryImmedateMatch engine_crossed 1) as [e'| | |] eqn:E;
    try (vm_compute in E; discriminate).
  destruct (fills_are_positive engine_crossed 1 e') as (new & Hnew & Hpos & Hb & _).
  - repeat constructor; unfold positive_quantity; simpl; lia.
  - repeat constructor; unfold positive_quantity; simpl; lia.
  - exact E.
  - by exists e', new.
Defined.

(** ** The slot registry *)

(** X5.  [registerAdSlot] registers a slot whose id is free, with two empty
    books, and touches no other slot; it refuses an id that is taken and
    then changes nothing, so that a second registration under the same id
    never replaces the first. *)
Theorem registerAdSlot_once e s :
  (is_Some (ad_slots e !! slot_slot_id s) -> registerAdSlot e s = (false, e))
  /\ (ad_slots e !! slot_slot_id s = None ->
      exists e',
        registerAdSlot e s = (true, e')
        /\ ad_slots e' !! slot_slot_id s = Some s
        /\ bids_of e' (slot_slot_id s) = [] /\ asks_of e' (slot_slot_id s) = []
        /\ (forall k, k <> slot_slot_id s ->
                      ad_slots e' !! k = ad_slots e !! k
                      /\ bids_of e' k = bids_of e k /\ asks_of e' k = asks_of e k)
        /\ stat_active_slots (getStats e')
           = to_uint32 (stat_active_slots (getStats e) + 1)
        /\ (forall s', slot_slot_id s' = slot_slot_id s ->
                       registerAdSlot e' s' = (false, e'))).
Proof.
  unfold registerAdSlot. split.
  - by intros [s0 ->].
  - intros Hnone. rewrite Hnone. eexists. split; [done|].
    unfold bids_of, asks_of. simpl. rewrite !lookup_insert_eq. simpl.
    repeat split; try done.
    + by rewrite lookup_insert_ne.
    + by rewrite lookup_insert_ne.
    + by rewrite lookup_insert_ne.
    + rewrite map_size_insert_None by done. rewrite to_uint32_succ. f_equal. lia.
    + intros s' ->. by rewrite lookup_insert_eq.
Qed.

Lemma registerAdSlot_once_witness :
  exists e',
    registerAdSlot empty_engine slot_S1 = (true, e')
    /\ ad_slots e' !! 1 = Some slot_S1
    /\ registerAdSlot e' slot_small = (false, e').
Proof.
  destruct (proj2 (registerAdSlot_once empty_engine slot_S1))
    as (e' & Hreg & Hget & _ & _ & _ & _ & Htwice); [reflexivity|].
  exists e'. split; [exact Hreg|]. split; [exact Hget|]. by apply Htwice.
Defined.

Lemma apply_op_keeps_slots std_sort thrust_sort e op e' k s :
  apply_op std_sort thrust_sort e op = Ok e' ->
  ad_slots e !! k = Some s -> ad_slots e' !! k = Some s.
Proof.
  destruct op; simpl.
  - unfold registerAdSlot. destruct (ad_slots e !! slot_slot_id s0) eqn:E;
      intros [= <-]; [done|]. simpl. intros Hk.
    rewrite lookup_insert_ne; [done|]. intros <-. congruence.
  - destruct (addOrder _ _ _ _) as [[b e1]| | |] eqn:E; simpl; [|done..].
    intros [= <-]. by rewrite (addOrder_ad_slots _ _ _ _ _ _ E).
  - unfold runBatchAuction.
    destruct (subscript (bid_books e) _ _) as [bids bb].
    destruct (subscript (ask_books e) _ _) as [asks ab].
    by destruct bids, asks; intros [= <-].
  - by intros [= <-].
  - unfold revealBid. destruct (reveal_deadlines e !! _); [|by intros [= <-]].
    destruct (now >? _); [by intros [= <-]|].
    destruct (subscript _ _ _). by destruct (list_find _ _) as [[??]|]; intros [= <-].
  - unfold addLiquidity. destruct (subscript _ _ _).
    destruct (update_last_price _); simpl; [|done..]. by intros [= <-].
Qed.

(** X6.  A registered slot is never written to again: through any sequence
    of operations its record stays as it was registered, so that no
    operation deactivates a slot, moves its window or counts a delivery,
    and [remainingSupply] and the inputs of [getCurrentPrice] are fixed at
    registration. *)
Theorem registered_slots_never_change std_sort thrust_sort ops :
  forall e e' k s,
    run_ops std_sort thrust_sort e ops = Ok e' ->
    ad_slots e !! k = Some s ->
    ad_slots e' !! k = Some s.
Proof.
  induction ops as [|op ops IH]; intros e e' k s; simpl.
  - by intros [= <-].
  - destruct (apply_op _ _ e op) as [e1| | |] eqn:E; simpl; [|done..].
    intros Hrun Hk. eapply IH; [exact Hrun|]. by eapply apply_op_keeps_slots.
Qed.

Lemma registered_slots_never_change_witness :
  exists e',
    run_ops insertion_sorter insertion_sorter engine_small
            (submissions [resting_bid; market_ask] 10) = Ok e'
    /\ ad_slots e' !! 1 = Some slot_small.
Proof.
  eexists. split; [vm_compute; reflexivity|].
  eapply (registered_slots_never_change insertion_sorter insertion_sorter
            (submissions [resting_bid; market_ask] 10) engine_small).
  - vm_compute; reflexivity.
  - reflexivity.
Defined.

(** ** What an order touches *)

Lemma book_inserted_other_slot std_sort e o k :
  k <> slot_id o ->
  bids_of (book_inserted std_sort e o) k = bids_of e k
  /\ asks_of (book_inserted std_sort e o) k = asks_of e k.
Proof.
  intros Hk. unfold book_inserted, bids_of, asks_of.
  destruct (is_buy o); simpl; by rewrite lookup_insert_ne.
Qed.

Lemma tryImmedateMatch_other_slot e slot e' k :
  tryImmedateMatch e slot = Ok e' -> k <> slot ->
  bids_of e' k = bids_of e k /\ asks_of e' k = asks_of e k.
Proof.
  destruct (tryImmedateMatch_returns e slot) as (? & ? & ? & ? & _ & ->).
  intros [= <-] Hk. unfold bids_of, asks_of. simpl.
  by rewrite !lookup_insert_ne.
Qed.

(** X7.  An order touches its own slot only: the books, the committed
    orders and the pool of every other slot are after [addOrder] what they
    were before. *)
Theorem addOrder_other_slots std_sort e o now b e' k :
  addOrder std_sort e o now = Ok (b, e') ->
  k <> slot_id o ->
  bids_of e' k = bids_of e k /\ asks_of e' k = asks_of e k
  /\ committed e' k = committed e k
  /\ amm_pools e' !! k = amm_pools e !! k.
Proof.
  rewrite addOrder_route. intros Hadd Hk.
  destruct (validates e o now); [|by injection Hadd as _ <-].
  destruct (type o) eqn:Hty.
  - rewrite addLimitOrder_unfold, Hty in Hadd. injection Hadd as _ <-.
    destruct (book_inserted_other_slot std_sort e o k Hk) as [-> ->].
    pose proof (book_inserted_frame std_sort e o) as (_ & Hp & Hc & _).
    unfold committed. by rewrite Hp, Hc.
  - rewrite addLimitOrder_unfold, Hty in Hadd.
    destruct (tryImmedateMatch _ _) as [e3| | |] eqn:E; [|done..].
    simpl in Hadd. injection Hadd as _ <-.
    destruct (tryImmedateMatch_other_slot _ _ _ k E Hk) as [-> ->].
    destruct (book_inserted_other_slot std_sort e o k Hk) as [-> ->].
    apply tryImmedateMatch_frame in E as (_ & Hp1 & Hc1 & _).
    pose proof (book_inserted_frame std_sort e o) as (_ & Hp & Hc & _).
    unfold committed. by rewrite Hp1, Hc1, Hp, Hc.
  - unfold addCommitRevealOrder, subscript in Hadd.
    destruct (commit_phase_orders e !! slot_id o); injection Hadd as _ <-;
      unfold committed; simpl; by rewrite ?lookup_insert_ne.
  - unfold executeAMMSwap, subscript in Hadd.
    destruct (amm_pools e !! slot_id o) as [pool|];
      destruct (getSwapPrice _ _ _) as [amt| | |]; simpl in Hadd; try done;
      destruct (amt <=? 0); try (injection Hadd as _ <-);
      try (destruct (update_last_price _); simpl in Hadd; [|done..];
           injection Hadd as _ <-);
      unfold committed, bids_of, asks_of; simpl; by rewrite ?lookup_insert_ne.
  - by injection Hadd as _ <-.
Qed.

Lemma addOrder_other_slots_witness :
  exists e e',
    run_ops insertion_sorter insertion_sorter empty_engine ops_two_slots = Ok e
    /\ addOrder insertion_sorter e market_ask 10 = Ok (true, e')
    /\ fills e' = [mkFill 1 2 1000 10]
    /\ bids_of e 2 = [bid_on_S2] /\ bids_of e' 2 = bids_of e 2
    /\ asks_of e 2 = [ask_on_S2] /\ asks_of e' 2 = asks_of e 2
    /\ committed e 2 = [sealed_on_S2] /\ committed e' 2 = committed e 2
    /\ amm_pools e !! 2 = Some (mkPool 0 1000 100 10)
    /\ amm_pools e' !! 2 = amm_pools e !! 2.
Proof.
  eexists _, _. split; [vm_compute; reflexivity|].
  split; [vm_compute; reflexivity|].
  split; [vm_compute; reflexivity|].
  match goal with
  | |- bids_of ?e 2 = _ /\ bids_of ?e' 2 = _ /\ _ =>
      destruct (addOrder_other_slots insertion_sorter e market_ask 10 true e' 2
                  ltac:(vm_compute; reflexivity) ltac:(discriminate))
        as (Hb & Ha & Hc & Hp)
  end.
  split; [vm_compute; reflexivity|]. split; [exact Hb|].
  split; [vm_compute; reflexivity|]. split; [exact Ha|].
  split; [vm_compute; reflexivity|]. split; [exact Hc|].
  split; [vm_compute; reflexivity|]. exact Hp.
Defined.

(** X8.  Only a [MARKET] order sets the matcher off: any other order, a
    [LIMIT] order that crosses the book included, is taken in without a
    fill and without a match counted. *)
Theorem only_market_orders_match std_sort e o now b e' :
  type o <> MARKET ->
  addOrder std_sort e o now = Ok (b, e') ->
  fills e' = fills e /\ total_matches e' = total_matches e.
Proof.
  intros Hty. rewrite addOrder_route. destruct (validates e o now);
    [|by intros [= _ <-]].
  destruct (type o) eqn:Ety; try done.
  - rewrite addLimitOrder_unfold, Ety. intros [= _ <-].
    by pose proof (book_inserted_frame std_sort e o) as (_ & _ & _ & _ & -> & -> & _).
  - unfold addCommitRevealOrder. destruct (subscript _ _ _). by intros [= _ <-].
  - intros H. by apply executeAMMSwap_frame in H as (_ & _ & _ & _ & _ & _ & -> & ->).
  - by intros [= _ <-].
Qed.

(** The ask of [engine_crossed] came in below the resting bid and rests. *)
Lemma only_market_orders_match_witness :
  exists e1,
    addOrder insertion_sorter engine_S1 resting_bid 10 = Ok (true, e1)
    /\ addOrder insertion_sorter e1 resting_ask_4 10 = Ok (true, engine_crossed)
    /\ fills engine_crossed = fills e1
    /\ limit_price resting_ask_4 < limit_price resting_bid.
Proof.
  eexists. split; [vm_compute; reflexivity|].
  split; [vm_compute; reflexivity|].
  split; [|vm_compute; reflexivity].
  eapply (only_market_orders_match insertion_sorter _ resting_ask_4 10 true).
  - discriminate.
  - vm_compute; reflexivity.
Defined.

(** ** Resting orders are where they belong *)

Lemma placed_mono e e' slot buy o :
  (forall k s, ad_slots e !! k = Some s -> ad_slots e' !! k = Some s) ->
  placed e slot buy o -> placed e' slot buy o.
Proof.
  intros Hmono (? & ? & ? & s & Hs & ?). repeat split; try done.
  exists s. split; [by apply Hmono|done].
Qed.

Lemma placed_set_quantity e slot buy o q :
  placed e slot buy o -> placed e slot buy (set_quantity o q).
Proof. by intros (? & ? & ? & ?). Qed.

Lemma well_placed_same_books e e' :
  (forall k s, ad_slots e !! k = Some s -> ad_slots e' !! k = Some s) ->
  (forall k, bids_of e' k = bids_of e k /\ asks_of e' k = asks_of e k) ->
  well_placed e -> well_placed e'.
Proof.
  intros Hmono Hbooks He slot. destruct (Hbooks slot) as [-> ->].
  destruct (He slot) as [Hb Ha].
  split; (eapply Forall_impl; [eassumption|]); intros o; by apply placed_mono.
Qed.

Lemma book_inserted_well_placed std_sort `{!SorterOk std_sort} e o now :
  validates e o now = true -> type o = LIMIT \/ type o = MARKET ->
  well_placed e -> well_placed (book_inserted std_sort e o).
Proof.
  intros Hv Hty He slot.
  assert (forall k s, ad_slots e !! k = Some s ->
                      ad_slots (book_inserted std_sort e o) !! k = Some s) as Hmono.
  { intros k s. by rewrite (proj1 (book_inserted_frame std_sort e o)). }
  assert (placed e (slot_id o) (is_buy o) o) as Ho.
  { apply validates_spec in Hv as (s & Hs & Ht & _). repeat split; eauto. }
  destruct (He slot) as [Hb Ha].
  pose proof (bids_of_book_inserted std_sort e o slot) as Eb.
  pose proof (asks_of_book_inserted std_sort e o slot) as Ea.
  rewrite Eb, Ea, !Forall_app. clear Eb Ea.
  repeat split.
  - eapply Forall_impl; [exact Hb|]. intros ?. by apply placed_mono.
  - case_decide as Hd; [|constructor]. destruct Hd as [<- Hbuy].
    constructor; [|constructor]. rewrite <- Hbuy. by eapply placed_mono.
  - eapply Forall_impl; [exact Ha|]. intros ?. by apply placed_mono.
  - case_decide as Hd; [|constructor]. destruct Hd as [<- Hbuy].
    constructor; [|constructor]. rewrite <- Hbuy. by eapply placed_mono.
Qed.

Lemma tryImmedateMatch_well_placed e slot e' :
  well_placed e -> tryImmedateMatch e slot = Ok e' -> well_placed e'.
Proof.
  intros He.
  destruct (tryImmedateMatch_returns e slot) as (b1 & a1 & tm & fs & Hloop & ->).
  intros [= <-].
  apply (match_loop_invariant
           (fun b a => Forall (placed e slot true) b /\ Forall (placed e slot false) a))
    in Hloop as [Hb1 Ha1].
  - intros k. unfold bids_of, asks_of. simpl.
    destruct (decide (slot = k)) as [<-|Hne].
    + rewrite !lookup_insert_eq. simpl. split; [exact Hb1|exact Ha1].
    + rewrite !lookup_insert_ne by done. apply (He k).
  - intros bids asks bids' asks' f [Hb Ha] Hstep. unfold match_step in Hstep.
    destruct bids as [|b bids], asks as [|a asks]; try done.
    destruct (limit_price b >=? limit_price a); [|done].
    injection Hstep as <- <- _.
    apply Forall_cons in Hb as [Hb0 Hb], Ha as [Ha0 Ha].
    split; case_match; try done; apply Forall_cons;
      (split; [by apply placed_set_quantity|done]).
  - apply (He slot).
Qed.

Lemma apply_op_well_placed std_sort `{!SorterOk std_sort} thrust_sort e op e' :
  well_placed e -> apply_op std_sort thrust_sort e op = Ok e' -> well_placed e'.
Proof.
  intros He. destruct op; simpl.
  - unfold registerAdSlot.
    destruct (ad_slots e !! slot_slot_id s) as [s0|] eqn:E; intros [= <-]; [done|].
    intros slot. unfold bids_of, asks_of. simpl.
    destruct (decide (slot = slot_slot_id s)) as [->|Hne].
    + rewrite !lookup_insert_eq. split; constructor.
    + rewrite !lookup_insert_ne by done. destruct (He slot) as [Hbs Has].
      split; (eapply Forall_impl; [eassumption|]); intros o;
        apply placed_mono; intros k s1 Hk; simpl;
        (rewrite lookup_insert_ne; [done|]); intros <-; congruence.
  - rewrite addOrder_route. destruct (validates e o now) eqn:Hv; simpl;
      [|by intros [= <-]].
    destruct (type o) eqn:Hty; simpl.
    + rewrite addLimitOrder_unfold, Hty. simpl. intros [= <-].
      eapply book_inserted_well_placed; eauto.
    + rewrite addLimitOrder_unfold, Hty.
      destruct (tryImmedateMatch _ _) as [e3| | |] eqn:E; simpl; [|done..].
      intros [= <-]. eapply tryImmedateMatch_well_placed; [|exact E].
      eapply book_inserted_well_placed; eauto.
    + unfold addCommitRevealOrder. destruct (subscript _ _ _). intros [= <-].
      by apply (well_placed_same_books e).
    + destruct (executeAMMSwap e o) as [[b e1]| | |] eqn:E; simpl; [|done..].
      intros [= <-]. apply executeAMMSwap_frame in E as (Hs & Hb & Ha & _).
      apply (well_placed_same_books e); [by rewrite Hs| |done].
      intros k. unfold bids_of, asks_of. by rewrite Hb, Ha.
    + by intros [= <-].
  - unfold runBatchAuction, subscript. intros Hrun.
    apply (well_placed_same_books e); [|intros k; unfold bids_of, asks_of|done].
    + destruct (bid_books e !! slot) as [[|??]|], (ask_books e !! slot) as [[|??]|];
        by injection Hrun as <-.
    + destruct (bid_books e !! slot) as [[|??]|] eqn:Eb,
               (ask_books e !! slot) as [[|??]|] eqn:Ea;
        injection Hrun as <-; simpl;
        (destruct (decide (slot = k)) as [<-|Hne];
         [by rewrite ?lookup_insert_eq, ?Eb, ?Ea
         |by rewrite ?lookup_insert_ne by done]).
  - intros [= <-]. by apply (well_placed_same_books e).
  - unfold revealBid. destruct (reveal_deadlines e !! _); [|by intros [= <-]].
    destruct (now >? _); [by intros [= <-]|].
    destruct (subscript _ _ _). destruct (list_find _ _) as [[??]|];
      intros [= <-]; by apply (well_placed_same_books e).
  - unfold addLiquidity. destruct (subscript _ _ _).
    destruct (update_last_price _); simpl; [|done..]. intros [= <-].
    by apply (well_placed_same_books e).
Qed.

(** X9.  Whatever operations the engine has gone through since it was
    created, every order resting in a bid book is a buy order of that very
    slot, of type [LIMIT] or [MARKET], on a registered slot whose targeting
    hash it carries; likewise the sell orders of an ask book.  So the two
    sides of a slot's book always agree on targeting. *)
Theorem resting_orders_well_placed std_sort `{!SorterOk std_sort} thrust_sort ops e :
  run_ops std_sort thrust_sort empty_engine ops = Ok e ->
  forall slot,
    Forall (placed e slot true) (bids_of e slot)
    /\ Forall (placed e slot false) (asks_of e slot).
Proof.
  assert (forall e0 e1, well_placed e0 ->
            run_ops std_sort thrust_sort e0 ops = Ok e1 -> well_placed e1) as Hrun.
  { induction ops as [|op ops IH]; intros e0 e1 He0; simpl.
    - by intros [= <-].
    - destruct (apply_op _ _ e0 op) as [e2| | |] eqn:E; simpl; [|done..].
      apply IH. by eapply apply_op_well_placed. }
  intros H. apply (Hrun empty_engine e); [|done].
  intros slot. split; constructor.
Qed.

Lemma resting_orders_well_placed_witness :
  exists e,
    run_ops insertion_sorter insertion_sorter empty_engine ops_two_bids = Ok e
    /\ Forall (placed e 1 true) (bids_of e 1).
Proof.
  eexists. split; [vm_compute; reflexivity|].
  eapply (resting_orders_well_placed insertion_sorter insertion_sorter ops_two_bids).
  vm_compute; reflexivity.
Defined.

(** ** The commit arena *)

Lemma revealBid_unfold e slot oid p nonce now :
  revealBid e slot oid p nonce now =
    match reveal_deadlines e !! slot with
    | None => (false, e)
    | Some deadline =>
        if now >? deadline then (false, e)
        else
          match list_find (fun o => order_id o = oid) (committed e slot) with
          | None =>
              (false,
               with_commit_phase_orders e
                 (subscript (commit_phase_orders e) slot []).2)
          | Some (i, o) =>
              (true,
               with_commit_phase_orders e
                 (<[slot := <[i := set_revealed o p]> (committed e slot)]>
                    (commit_phase_orders e)))
          end
    end.
Proof.
  unfold revealBid. destruct (reveal_deadlines e !! slot) as [deadline|]; [|done].
  destruct (now >? deadline); [done|]. unfold committed. name_subscript.
  destruct (list_find _ _) as [[i o]|]; [|done]. by rewrite Hm.
Qed.

Lemma list_find_reinsert {A} (P : A -> Prop) `{forall x, Decision (P x)}
      (l : list A) i x y :
  list_find P l = Some (i, x) -> P y ->
  list_find P (<[i := y]> l) = Some (i, y).
Proof.
  intros (Hi & _ & Hlt)%list_find_Some Hy. apply list_find_Some.
  split; [|split; [done|]].
  - apply list_lookup_insert_eq. by eapply lookup_lt_Some.
  - intros j z Hj Hji. rewrite list_lookup_insert_ne in Hj by lia. by eapply Hlt.
Qed.

(** X10.  A committed order is accepted whether or not a commit phase is
    open for its slot: it is appended to the slot's committed orders, after
    those already there, and nothing else in the engine changes. *)
Theorem commit_is_appended std_sort e o now :
  validates e o now = true -> type o = COMMIT_REVEAL ->
  exists e',
    addOrder std_sort e o now = Ok (true, e')
    /\ committed e' (slot_id o) = committed e (slot_id o) ++ [o]
    /\ reveal_deadlines e' = reveal_deadlines e
    /\ bid_books e' = bid_books e /\ ask_books e' = ask_books e
    /\ amm_pools e' = amm_pools e /\ ad_slots e' = ad_slots e
    /\ fills e' = fills e /\ total_matches e' = total_matches e.
Proof.
  intros Hv Hty. rewrite addOrder_route, Hv, Hty.
  unfold addCommitRevealOrder, committed. name_subscript.
  eexists. split; [done|]. simpl. by rewrite lookup_insert_eq.
Qed.

Lemma commit_is_appended_witness :
  exists e',
    addOrder insertion_sorter engine_S1 sealed_bid 10 = Ok (true, e')
    /\ committed e' 1 = [sealed_bid]
    /\ reveal_deadlines e' !! 1 = None.
Proof.
  destruct (commit_is_appended insertion_sorter engine_S1 sealed_bid 10)
    as (e' & Hadd & Hc & Hd & _); [reflexivity..|].
  exists e'. split; [exact Hadd|]. split; [exact Hc|]. by rewrite Hd.
Defined.

(** X11.  [startCommitPhase] opens a phase that ends [duration_ms]
    milliseconds from now, and discards what was committed for the slot
    before: a reveal of any order id fails until an order is committed
    again.  Other slots keep their orders and deadlines. *)
Theorem startCommitPhase_discards e slot duration_ms now :
  exists e',
    startCommitPhase e slot duration_ms now = (true, e')
    /\ reveal_deadlines e' !! slot = Some (now + duration_ms * ticks_per_ms)
    /\ committed e' slot = []
    /\ (forall oid p nonce t, revealBid e' slot oid p nonce t = (false, e'))
    /\ (forall k, k <> slot ->
                  committed e' k = committed e k
                  /\ reveal_deadlines e' !! k = reveal_deadlines e !! k).
Proof.
  eexists. split; [done|]. unfold committed. simpl. rewrite !lookup_insert_eq.
  repeat split.
  - intros oid p nonce t. unfold revealBid, subscript. simpl.
    rewrite !lookup_insert_eq. by destruct (t >? _).
  - by rewrite lookup_insert_ne.
  - by rewrite lookup_insert_ne.
Qed.



(** X13.  A reveal can be made again: while the phase is open, a second
    reveal of the same order id succeeds and replaces the price of the
    first. *)
Theorem reveal_again_overwrites e slot oid deadline i o p1 n1 now1 p2 n2 now2 :
  reveal_deadlines e !! slot = Some deadline ->
  now1 <= deadline -> now2 <= deadline ->
  list_find (fun o => order_id o = oid) (committed e slot) = Some (i, o) ->
  exists e1 e2,
    revealBid e slot oid p1 n1 now1 = (true, e1)
    /\ revealBid e1 slot oid p2 n2 now2 = (true, e2)
    /\ committed e2 slot = <[i := set_revealed o p2]> (committed e slot).
Proof.
  intros Hd Hn1 Hn2 Hfind.
  set (e1 := with_commit_phase_orders e
               (<[slot := <[i := set_revealed o p1]> (committed e slot)]>
                  (commit_phase_orders e))).
  assert (committed e1 slot = <[i := set_revealed o p1]> (committed e slot)) as Hc1.
  { unfold committed at 1. simpl. by rewrite lookup_insert_eq. }
  assert (list_find (fun o => order_id o = oid) (committed e1 slot)
          = Some (i, set_revealed o p1)) as Hfind1.
  { rewrite Hc1. apply (list_find_reinsert _ _ i o); [done|].
    simpl. by apply list_find_Some in Hfind as (_ & ? & _). }
  exists e1. eexists. split.
  { rewrite revealBid_unfold, Hd, Hfind.
    by replace (now1 >? deadline) with false by lia. }
  rewrite revealBid_unfold, Hfind1.
  change (reveal_deadlines e1) with (reveal_deadlines e). rewrite Hd.
  replace (now2 >? deadline) with false by lia.
  split; [done|]. unfold committed at 1. simpl. rewrite lookup_insert_eq. simpl.
  by rewrite Hc1, list_insert_insert_eq.
Qed.

Lemma reveal_again_overwrites_witness :
  exists e1 e2,
    revealBid (engine_sealed "c") 1 7 1500 "a" 50 = (true, e1)
    /\ revealBid e1 1 7 99 "b" 60 = (true, e2)
    /\ committed e2 1 = [set_revealed (sealed_order "c") 99].
Proof.
  apply (reveal_again_overwrites (engine_sealed "c") 1 7 100000000 0%nat
           (sealed_order "c") 1500 "a" 50 99 "b" 60); try reflexivity; lia.
Defined.

(** ** Pools *)

Lemma to_int64_add_l a b : to_int64 (to_int64 a + b) = to_int64 (a + b).
Proof.
  unfold to_int64. f_equal.
  replace ((a + 2 ^ 63) mod 2 ^ 64 - 2 ^ 63 + b + 2 ^ 63)
    with ((a + 2 ^ 63) mod 2 ^ 64 + b) by lia.
  rewrite Zplus_mod_idemp_l. f_equal. lia.
Qed.

Lemma to_uint64_add_l a b : to_uint64 (to_uint64 a + b) = to_uint64 (a + b).
Proof. unfold to_uint64. apply Zplus_mod_idemp_l. Qed.

Lemma addLiquidity_unfold e slot a q :
  addLiquidity e slot a q =
    let pool := default zero_pool (amm_pools e !! slot) in
    pool' ← update_last_price
              (mkPool (pool_slot_id pool)
                      (to_int64 (reserve_ausd pool + a))
                      (to_uint64 (reserve_supply pool + q))
                      (last_price pool));
    Ok (true, with_amm_pools e (<[slot := pool']> (amm_pools e))).
Proof.
  unfold addLiquidity. name_subscript. simpl.
  destruct (update_last_price _); simpl; try done. by rewrite Hm.
Qed.

(** X14.  [addLiquidity] asks nothing of the slot registry and fails in one
    way only: it divides by zero exactly when the supply reserve it arrives
    at is zero, as on a slot without a pool when no impressions are
    deposited; otherwise it returns true and the slot has a pool. *)
Theorem addLiquidity_divides_by_supply e slot a q :
  let supply :=
    to_uint64 (reserve_supply (default zero_pool (amm_pools e !! slot)) + q) in
  (supply = 0 -> addLiquidity e slot a q = DivByZero)
  /\ (supply <> 0 ->
      exists e' pool',
        addLiquidity e slot a q = Ok (true, e')
        /\ amm_pools e' !! slot = Some pool'
        /\ reserve_supply pool' = supply
        /\ ad_slots e' = ad_slots e)
  /\ (amm_pools e !! slot = None -> addLiquidity e slot a 0 = DivByZero).
Proof.
  simpl. rewrite !addLiquidity_unfold. unfold update_last_price. simpl.
  split; [|split].
  - by intros ->.
  - intros Hne. apply Z.eqb_neq in Hne. rewrite Hne. simpl.
    eexists _, _. split; [done|]. simpl. by rewrite lookup_insert_eq.
  - by intros ->.
Qed.

Lemma addLiquidity_divides_by_supply_witness :
  addLiquidity engine_S1 1 1000 0 = DivByZero
  /\ exists e' pool',
      addLiquidity engine_S1 1 1000 100 = Ok (true, e')
      /\ amm_pools e' !! 1 = Some pool' /\ reserve_supply pool' = 100.
Proof.
  destruct (addLiquidity_divides_by_supply engine_S1 1 1000 0) as (Hz & _ & _).
  destruct (addLiquidity_divides_by_supply engine_S1 1 1000 100) as (_ & Hnz & _).
  split; [by apply Hz|].
  destruct Hnz as (e' & pool' & Hadd & Hp & Hs & _); [by vm_compute|].
  by exists e', pool'.
Defined.

(** X15.  Deposits add up: two deposits of liquidity to a slot, made one
    after the other, leave the engine that the single deposit of both
    amounts leaves. *)
Theorem addLiquidity_composes e slot a1 q1 a2 q2 e1 e2 :
  addLiquidity e slot a1 q1 = Ok (true, e1) ->
  addLiquidity e1 slot a2 q2 = Ok (true, e2) ->
  addLiquidity e slot (a1 + a2) (q1 + q2) = Ok (true, e2).
Proof.
  rewrite !addLiquidity_unfold. unfold update_last_price. simpl.
  set (pool := default zero_pool (amm_pools e !! slot)).
  destruct (to_uint64 (reserve_supply pool + q1) =? 0); [done|]. simpl.
  intros [= <-]. simpl. rewrite lookup_insert_eq. simpl.
  rewrite to_int64_add_l, to_uint64_add_l, !Z.add_assoc.
  destruct (to_uint64 (reserve_supply pool + q1 + q2) =? 0); [done|]. simpl.
  intros [= <-]. by rewrite insert_insert_eq.
Qed.

Lemma addLiquidity_composes_witness :
  exists e1 e2,
    addLiquidity engine_S1 1 400 40 = Ok (true, e1)
    /\ addLiquidity e1 1 600 60 = Ok (true, e2)
    /\ addLiquidity engine_S1 1 1000 100 = Ok (true, e2)
    /\ e2 = engine_pool.
Proof.
  eexists _, _. split; [vm_compute; reflexivity|].
  split; [vm_compute; reflexivity|]. split; [|by vm_compute].
  eapply (addLiquidity_composes engine_S1 1 400 40 600 60).
  - vm_compute; reflexivity.
  - vm_compute; reflexivity.
Defined.

Lemma pool_in_range_le p q1 q2 :
  pool_in_range p q2 -> 0 <= q1 <= q2 -> pool_in_range p q1.
Proof. unfold pool_in_range. intros (?&?&?&?&?&?) ?. repeat split; lia. Qed.

(** X16.  On a pool with both reserves positive and arithmetic inside 64
    bits, a quote is never negative and never more than the reserve it is
    taken from; it is zero for a quantity of zero, at least one for any
    positive quantity, and it does not shrink when the quantity grows. *)
Theorem getSwapPrice_bounded_monotone p q1 q2 buy :
  pool_in_range p q2 -> 0 <= q1 <= q2 ->
  exists out1 out2,
    getSwapPrice p q1 buy = Ok out1 /\ getSwapPrice p q2 buy = Ok out2
    /\ 0 <= out1 <= out2
    /\ out2 <= (if buy then reserve_ausd p else reserve_supply p)
    /\ (q1 = 0 -> out1 = 0) /\ (0 < q1 -> 0 < out1).
Proof.
  intros Hr2 Hq. pose proof (pool_in_range_le p q1 q2 Hr2 Hq) as Hr1.
  rewrite (getSwapPrice_in_range p q1 buy Hr1), (getSwapPrice_in_range p q2 buy Hr2).
  eexists _, _. split; [done|]. split; [done|].
  destruct Hr2 as (HA & HS & _ & Hk & HSq & HAq). unfold reserve_product.
  set (A := reserve_ausd p) in *. set (S := reserve_supply p) in *.
  assert (forall d, 0 < d -> forall x, 0 <= x -> 0 <= A * S / (d + x)) as Hpos.
  { intros d Hd x Hx. apply Z.div_pos; nia. }
  assert (forall d, 0 < d -> forall x y, 0 <= x <= y ->
                    A * S / (d + y) <= A * S / (d + x)) as Hmono.
  { intros d Hd x y Hxy. apply Z.div_le_compat_l; nia. }
  assert (forall d, 0 < d -> forall x, 0 < x -> d * (A * S / (d + x)) < A * S)
    as Hstrict.
  { intros d Hd x Hx.
    pose proof (Z.mul_div_le (A * S) (d + x) ltac:(lia)).
    pose proof (Hpos d Hd x ltac:(lia)). nia. }
  destruct buy.
  - pose proof (Hmono S HS q1 q2 Hq). pose proof (Hmono S HS 0 q1 ltac:(lia)) as H0.
    pose proof (Hpos S HS q2 ltac:(lia)).
    rewrite Z.add_0_r, Z.div_mul in H0 by lia.
    repeat split; try lia.
    + intros ->. rewrite Z.add_0_r, Z.div_mul by lia. lia.
    + intros Hq1. pose proof (Hstrict S HS q1 Hq1). nia.
  - pose proof (Hmono A HA q1 q2 Hq). pose proof (Hmono A HA 0 q1 ltac:(lia)) as H0.
    pose proof (Hpos A HA q2 ltac:(lia)).
    rewrite Z.add_0_r, (Z.mul_comm A S), Z.div_mul in H0 by lia.
    rewrite (Z.mul_comm A S) in *.
    repeat split; try lia.
    + intros ->. rewrite Z.add_0_r, Z.div_mul by lia. lia.
    + intros Hq1. pose proof (Hstrict A HA q1 Hq1). nia.
Qed.

Lemma getSwapPrice_bounded_monotone_witness :
  exists out1 out2,
    getSwapPrice pool_scenario_4 10000 false = Ok out1
    /\ getSwapPrice pool_scenario_4 20000 false = Ok out2
    /\ 0 <= out1 <= out2 /\ out2 <= 1000.
Proof.
  destruct (getSwapPrice_bounded_monotone pool_scenario_4 10000 20000 false)
    as (out1 & out2 & H1 & H2 & Hle & Hmax & _).
  - unfold pool_in_range, max_int64. simpl. lia.
  - lia.
  - by exists out1, out2.
Defined.

Lemma with_amm_pools_same e : with_amm_pools e (amm_pools e) = e.
Proof. by destruct e. Qed.

(** X17.  A swap that is refused leaves a pool that existed as it was, and
    a swap of a quantity of zero is refused on every pool with positive
    reserves and arithmetic inside 64 bits. *)
Theorem refused_swap_changes_nothing std_sort e o now p :
  amm_pools e !! slot_id o = Some p -> type o = AMM_SWAP ->
  (forall e', addOrder std_sort e o now = Ok (false, e') -> e' = e)
  /\ (validates e o now = true -> quantity o = 0 -> pool_in_range p 0 ->
      addOrder std_sort e o now = Ok (false, e)).
Proof.
  intros Hp Hty. rewrite addOrder_route, Hty.
  unfold executeAMMSwap, subscript. rewrite Hp. split.
  - intros e'. destruct (validates e o now); [|by intros [= <-]].
    destruct (getSwapPrice _ _ _) as [amt| | |]; simpl; [|done..].
    destruct (amt <=? 0).
    + intros [= <-]. apply with_amm_pools_same.
    + by destruct (update_last_price _).
  - intros -> -> Hr. rewrite (getSwapPrice_in_range p 0 (is_buy o) Hr). simpl.
    destruct Hr as (HA & HS & _). unfold reserve_product.
    rewrite !Z.add_0_r, Z.div_mul, (Z.mul_comm (reserve_ausd p)), Z.div_mul by lia.
    replace ((if is_buy o then reserve_ausd p - reserve_ausd p
              else reserve_supply p - reserve_supply p) <=? 0) with true
      by (destruct (is_buy o); lia).
    by rewrite with_amm_pools_same.
Qed.

Lemma refused_swap_changes_nothing_witness :
  addOrder insertion_sorter engine_pool (swap_buy 0) 10 = Ok (false, engine_pool).
Proof.
  apply (refused_swap_changes_nothing insertion_sorter engine_pool (swap_buy 0) 10
           (mkPool 0 1000 100 10)); try reflexivity.
  unfold pool_in_range, max_int64. simpl. lia.
Defined.

(** ** Order priority *)

Lemma lor_shifted_low x c :
  0 <= c < 2 ^ 32 -> Z.lor (x * 2 ^ 32) c = x * 2 ^ 32 + c.
Proof.
  intros Hc.
  assert (Z.land (x * 2 ^ 32) c = 0) as Hland.
  { apply Z.bits_inj'. intros n Hn. rewrite Z.land_spec, Z.bits_0.
    rewrite <- Z.shiftl_mul_pow2 by lia.
    destruct (Z_lt_le_dec n 32).
    - by rewrite Z.shiftl_spec_low.
    - rewrite <- (Z.mod_small c (2 ^ 32)) by lia.
      rewrite Z.mod_pow2_bits_high by lia. apply andb_false_r. }
  rewrite <- Z.lxor_lor by done. symmetry. by apply Z.add_nocarry_lxor.
Qed.

Lemma priority_small o :
  0 <= limit_price o < 2 ^ 32 -> 0 <= created o < 2 ^ 32 ->
  priority o = limit_price o * 2 ^ 32 + created o.
Proof.
  intros Hp Hc. unfold priority.
  rewrite (to_uint64_id (limit_price o)) by (unfold is_uint64; lia).
  rewrite Z.shiftl_mul_pow2 by lia.
  rewrite (to_uint64_id (_ * _)) by (unfold is_uint64; lia).
  rewrite (to_uint64_id (created o)) by (unfold is_uint64; lia).
  by apply lor_shifted_low.
Qed.

(** X18.  For prices and creation times below [2^32], [priority()] orders
    by price first and by creation time among equal prices. *)
Theorem priority_is_price_then_time a b :
  0 <= limit_price a < 2 ^ 32 -> 0 <= created a < 2 ^ 32 ->
  0 <= limit_price b < 2 ^ 32 -> 0 <= created b < 2 ^ 32 ->
  (priority a < priority b <->
   limit_price a < limit_price b
   \/ (limit_price a = limit_price b /\ created a < created b)).
Proof.
  intros Hpa Hca Hpb Hcb. rewrite !priority_small by done. lia.
Qed.

Lemma priority_is_price_then_time_witness :
  priority ask_twin_1 < priority bid_crossing.
Proof.
  apply (priority_is_price_then_time ask_twin_1 bid_crossing);
    try (simpl; lia).
Defined.

(** X19.  [priority()] keeps the low 32 bits of the price only: two orders
    created at the same time whose prices differ by a multiple of [2^32]
    have the same priority. *)
Theorem priority_drops_high_price_bits a b k :
  limit_price a = limit_price b + k * 2 ^ 32 ->
  created a = created b ->
  priority a = priority b.
Proof.
  intros Hp Hc. unfold priority. rewrite Hc. f_equal.
  rewrite !Z.shiftl_mul_pow2 by lia. unfold to_uint64.
  rewrite !Z.mul_mod_idemp_l by lia. rewrite Hp.
  replace ((limit_price b + k * 2 ^ 32) * 2 ^ 32)
    with (limit_price b * 2 ^ 32 + k * 2 ^ 64) by lia.
  by rewrite Z.mod_add by lia.
Qed.

Lemma priority_drops_high_price_bits_witness :
  priority (order_on_S1 1 LIMIT true (1000 + 2 ^ 32) 10 5 9)
  = priority (order_on_S1 2 LIMIT true 1000 10 5 9).
Proof.
  apply (priority_drops_high_price_bits _ _ 1); reflexivity.
Defined.

(** ** The batch auction, as it stands *)

Lemma subscript_default {V} (m : gmap Z V) k d k' :
  default d ((subscript m k d).2 !! k') = default d (m !! k').
Proof.
  unfold subscript. destruct (m !! k) eqn:E; simpl; [done|].
  destruct (decide (k = k')) as [<-|Hne].
  - by rewrite lookup_insert_eq, E.
  - by rewrite lookup_insert_ne.
Qed.

Lemma runBatchAuction_unfold thrust_sort e slot :
  runBatchAuction thrust_sort e slot =
    let e1 := with_ask_books
                (with_bid_books e (subscript (bid_books e) slot []).2)
                (subscript (ask_books e) slot []).2 in
    match bids_of e slot, asks_of e slot with
    | [], _ | _, [] => (mkBatch [] [] [] None, e1)
    | bids, asks =>
        (batch_result thrust_sort bids asks,
         with_matching e1
           (to_uint64 (total_matches e
                       + Z.of_nat (length (matches (batch_result thrust_sort bids asks)))))
           (fills e))
    end.
Proof.
  unfold runBatchAuction, bids_of, asks_of.
  pose proof (subscript_fst (bid_books e) slot []) as Hb.
  pose proof (subscript_fst (ask_books e) slot []) as Ha.
  destruct (subscript (bid_books e) slot []) as [bids bb].
  destruct (subscript (ask_books e) slot []) as [asks ab].
  simpl in *. rewrite <- Hb, <- Ha. by destruct bids, asks.
Qed.

(** X20.  The batch auction reports matches and removes nothing: the
    resting orders of every slot, the fills, the pools, the committed
    orders and the slot registry are after [runBatchAuction] what they were
    before, and a second run reports the same result again. *)
Theorem runBatchAuction_keeps_books thrust_sort e slot :
  let r := (runBatchAuction thrust_sort e slot).1 in
  let e' := (runBatchAuction thrust_sort e slot).2 in
  (forall k, bids_of e' k = bids_of e k /\ asks_of e' k = asks_of e k)
  /\ fills e' = fills e /\ ad_slots e' = ad_slots e
  /\ amm_pools e' = amm_pools e
  /\ commit_phase_orders e' = commit_phase_orders e
  /\ total_orders_processed e' = total_orders_processed e
  /\ (runBatchAuction thrust_sort e' slot).1 = r.
Proof.
  simpl.
  assert (forall k, bids_of (runBatchAuction thrust_sort e slot).2 k = bids_of e k
                    /\ asks_of (runBatchAuction thrust_sort e slot).2 k = asks_of e k)
    as Hbooks.
  { intros k. rewrite runBatchAuction_unfold. unfold bids_of, asks_of. simpl.
    destruct (default [] (bid_books e !! slot)), (default [] (ask_books e !! slot));
      simpl; by rewrite !subscript_default. }
  split; [exact Hbooks|].
  rewrite (runBatchAuction_result thrust_sort (runBatchAuction thrust_sort e slot).2).
  destruct (Hbooks slot) as [-> ->]. rewrite <- runBatchAuction_result.
  rewrite runBatchAuction_unfold. simpl.
  by destruct (bids_of e slot), (asks_of e slot).
Qed.

Lemma matchOrdersGPU_split sorted_bids sorted_asks :
  matchOrdersGPU (sorted_bids ++ sorted_asks) (length sorted_bids) =
    omap (fun bid =>
            (fun ask => (order_id bid, order_id ask)) <$>
            find (crosses bid) sorted_asks)
         sorted_bids.
Proof.
  unfold matchOrdersGPU. by rewrite take_app_length, drop_app_length.
Qed.

Lemma batch_result_matches thrust_sort `{!SorterOk thrust_sort} bids asks :
  matches (batch_result thrust_sort bids asks) =
    omap (fun bid =>
            (fun ask => (order_id bid, order_id ask)) <$>
            find (crosses bid) (sort_with thrust_sort priority_lt asks))
         (sort_with thrust_sort priority_gt bids).
Proof.
  unfold batch_result. simpl.
  rewrite <- (Permutation_length (sort_perm priority_gt bids)).
  apply matchOrdersGPU_split.
Qed.

Lemma length_omap_le {A B} (f : A -> option B) l :
  (length (omap f l) <= length l)%nat.
Proof. induction l as [|x l IH]; csimpl; [done|]. destruct (f x); csimpl; lia. Qed.

(** X21.  What the batch auction matches: every reported pair names a bid
    and an ask resting on the slot, of the same targeting, the bid's limit
    at or above the ask's; every resting bid that some resting ask of its
    targeting is at or below is reported; there are no more reported pairs
    than resting bids; each reported pair has the clearing price 0, and no
    clearing quantity is given. *)
Theorem batch_matches_cross thrust_sort `{!SorterOk thrust_sort} e slot :
  let r := (runBatchAuction thrust_sort e slot).1 in
  (forall bid_id ask_id,
      (bid_id, ask_id) ∈ matches r ->
      exists b a, b ∈ bids_of e slot /\ a ∈ asks_of e slot
                  /\ order_id b = bid_id /\ order_id a = ask_id
                  /\ limit_price a <= limit_price b
                  /\ targeting_hash b = targeting_hash a)
  /\ (forall b a, b ∈ bids_of e slot -> a ∈ asks_of e slot ->
                  limit_price a <= limit_price b ->
                  targeting_hash b = targeting_hash a ->
                  exists ask_id, (order_id b, ask_id) ∈ matches r)
  /\ (length (matches r) <= length (bids_of e slot))%nat
  /\ clearing_prices r = replicate (length (matches r)) 0
  /\ clearing_quantities r = [].
Proof.
  simpl. rewrite runBatchAuction_result.
  assert (forall bid ask, crosses bid ask = true <->
                          limit_price ask <= limit_price bid
                          /\ targeting_hash bid = targeting_hash ask) as Hcross.
  { intros bid ask. unfold crosses. rewrite andb_true_iff. lia. }
  destruct (bids_of e slot) as [|b0 bids] eqn:Eb.
  { simpl. repeat split; try done.
    - by intros ?? ?%elem_of_nil.
    - by intros ?? ?%elem_of_nil. }
  destruct (asks_of e slot) as [|a0 asks] eqn:Ea.
  { simpl. repeat split; try done; try lia.
    - by intros ?? ?%elem_of_nil.
    - by intros ??? ?%elem_of_nil. }
  set (bs := b0 :: bids). set (als := a0 :: asks).
  pose proof (batch_result_matches thrust_sort bs als) as Hm.
  repeat split.
  - intros bid_id ask_id. rewrite Hm, list_elem_of_omap.
    intros (b & Hb & Hf). destruct (find _ _) as [a|] eqn:Hfind; [|done].
    injection Hf as <- <-. apply find_some in Hfind as [Ha Hc].
    apply Hcross in Hc as [? ?]. exists b, a.
    rewrite sort_perm in Hb. apply list_elem_of_In in Ha. rewrite sort_perm in Ha.
    done.
  - intros b a Hb Ha Hp Ht.
    destruct (find (crosses b) (sort_with thrust_sort priority_lt als))
      as [a'|] eqn:Hfind.
    + exists (order_id a'). rewrite Hm, list_elem_of_omap. exists b.
      rewrite sort_perm, Hfind. done.
    + exfalso. assert (crosses b a = true) as Hc by by apply Hcross.
      rewrite (find_none _ _ Hfind a) in Hc; [done|].
      apply list_elem_of_In. by rewrite sort_perm.
  - rewrite Hm. etransitivity; [apply length_omap_le|].
    by rewrite (Permutation_length (sort_perm priority_gt bs)).
  - unfold batch_result. cbn [clearing_prices matches].
    case_bool_decide as Hnil; [by rewrite Hnil|].
    unfold calculateClearingPrices.
    generalize (matchOrdersGPU
                  (sort_with thrust_sort priority_gt bs
                   ++ sort_with thrust_sort priority_lt als) (length bs)).
    intros l. induction l; simpl; [done|]. by f_equal.
Qed.

Lemma batch_matches_cross_witness :
  (1500, 1000) = (limit_price resting_bid, limit_price resting_ask_4)
  /\ exists ask_id,
      (order_id resting_bid, ask_id)
        ∈ matches (runBatchAuction insertion_sorter engine_crossed 1).1.
Proof.
  split; [reflexivity|].
  destruct (batch_matches_cross insertion_sorter engine_crossed 1)
    as (_ & Hcomplete & _).
  apply (Hcomplete resting_bid resting_ask_4).
  - change (bids_of engine_crossed 1) with [resting_bid]. apply list_elem_of_here.
  - change (asks_of engine_crossed 1) with [resting_ask_4]. apply list_elem_of_here.
  - simpl. lia.
  - reflexivity.
Defined.

(** ** The price of a slot *)

(** X22.  While the premium arithmetic stays inside 64 bits, the current
    price is never negative and never above [floor_cpm] plus half of it,
    and an active slot that has not ended is never priced below its
    floor. *)
Theorem current_price_bounds s now :
  price_in_range s ->
  0 <= getCurrentPrice s now <= floor_cpm s + Z.quot (floor_cpm s) 2
  /\ (active s = true -> now <= end_time s -> floor_cpm s <= getCurrentPrice s now).
Proof.
  intros Hr. pose proof Hr as (Hf & Hmul & Hsum).
  assert (0 <= Z.quot (floor_cpm s) 2) as Hp by (apply Z.quot_pos; lia).
  destruct (active s) eqn:Hact.
  2: { unfold getCurrentPrice. rewrite Hact, orb_true_r. split; [lia|done]. }
  destruct (Z_lt_le_dec (end_time s) now) as [Hafter|Hbefore].
  { unfold getCurrentPrice. replace (now >? end_time s) with true by lia.
    simpl. split; lia. }
  destruct (Z_lt_le_dec now (start_time s)) as [Hearly|Hstarted].
  { unfold getCurrentPrice. rewrite Hact.
    replace (now >? end_time s) with false by lia.
    replace (now <? start_time s) with true by lia. simpl. split; lia. }
  destruct (Z_lt_le_dec 0 (to_milliseconds (end_time s - start_time s))) as [Hw|Hw].
  - rewrite getCurrentPrice_in_window by (done || lia).
    pose proof (premium_term_bounds (Z.quot (floor_cpm s) 2)
                  (to_milliseconds (end_time s - now))
                  (to_milliseconds (end_time s - start_time s)) Hp) as Hb.
    destruct Hb; [|done|split; lia].
    split; [apply to_milliseconds_nonneg; lia|apply to_milliseconds_mono; lia].
  - rewrite getCurrentPrice_short_window by (done || lia). split; lia.
Qed.

Lemma current_price_bounds_witness :
  1000 <= getCurrentPrice slot_S1 300000000 <= 1500.
Proof.
  destruct (current_price_bounds slot_S1 300000000 price_in_range_S1) as [[_ Hhi] Hlo].
  split; [apply Hlo; [reflexivity|simpl; lia]|exact Hhi].
Defined.

(** ** Market orders rest *)

Lemma match_loop_empty_side n bids asks tm fs :
  bids = [] \/ asks = [] ->
  match_loop n bids asks tm fs = Ok (bids, asks, tm, fs).
Proof.
  intros Hempty.
  assert (match_step bids asks = None) as Hstep.
  { destruct Hempty as [-> | ->]; [done|]. by destruct bids. }
  destruct n; simpl; by rewrite Hstep.
Qed.

(** X26.  A [MARKET] order is put in the book like a [LIMIT] order; when
    the other side of the slot's book is empty it is accepted, fills
    nothing and stays in the book. *)
Theorem market_order_rests std_sort `{!SorterOk std_sort} e o now :
  validates e o now = true -> type o = MARKET ->
  (if is_buy o then asks_of e (slot_id o) else bids_of e (slot_id o)) = [] ->
  exists e',
    addOrder std_sort e o now = Ok (true, e')
    /\ fills e' = fills e
    /\ (if is_buy o then bids_of e' (slot_id o) else asks_of e' (slot_id o))
       ≡ₚ (if is_buy o then bids_of e (slot_id o) else asks_of e (slot_id o)) ++ [o].
Proof.
  intros Hv Hty Hempty. rewrite addOrder_route, Hv, Hty, addLimitOrder_unfold, Hty.
  set (e1 := book_inserted std_sort e o).
  destruct (tryImmedateMatch_returns e1 (slot_id o))
    as (b1 & a1 & tm & fs & Hloop & ->).
  assert (bids_of e1 (slot_id o) = [] \/ asks_of e1 (slot_id o) = []) as Hside.
  { unfold e1. destruct (is_buy o) eqn:Hbuy.
    - right. by rewrite (proj2 (book_inserted_bid std_sort e o Hbuy)).
    - left. by rewrite (proj2 (book_inserted_ask std_sort e o Hbuy)). }
  rewrite (match_loop_empty_side _ _ _ _ _ Hside) in Hloop.
  injection Hloop as <- <- <- <-. simpl. eexists. split; [done|].
  match goal with |- fills ?e2 = _ /\ _ => set (e' := e2) end.
  split; [apply book_inserted_frame|].
  assert (bids_of e' (slot_id o) = bids_of e1 (slot_id o)
          /\ asks_of e' (slot_id o) = asks_of e1 (slot_id o)) as [-> ->].
  { split; [unfold bids_of at 1|unfold asks_of at 1]; unfold e'; simpl;
      by rewrite lookup_insert_eq. }
  unfold e1. destruct (is_buy o) eqn:Hbuy.
  - rewrite (proj1 (book_inserted_bid std_sort e o Hbuy)). apply sort_perm.
  - rewrite (proj1 (book_inserted_ask std_sort e o Hbuy)). apply sort_perm.
Qed.

Lemma market_order_rests_witness :
  exists e',
    addOrder insertion_sorter engine_S1 market_bid 10 = Ok (true, e')
    /\ fills e' = fills engine_S1
    /\ bids_of e' 1 ≡ₚ bids_of engine_S1 1 ++ [market_bid].
Proof.
  apply (market_order_rests insertion_sorter engine_S1 market_bid 10); reflexivity.
Defined.

(** ** Witnesses of the frame lemmas *)

Lemma revealBid_failure_frame_witness :
  revealBid (engine_sealed "c") 1 8 1500 "a" 50
  = (false, engine_sealed "c")
  /\ committed (engine_sealed "c") 1 = [sealed_order "c"].
Proof.
  split; [by vm_compute|].
  apply (revealBid_failure_frame (engine_sealed "c") 1 8 1500 "a" 50
           (engine_sealed "c")).
  by vm_compute.
Defined.

Lemma other_operations_keep_total_orders_witness :
  total_orders_processed
    (runBatchAuction insertion_sorter engine_crossed 1).2
  = total_orders_processed engine_crossed.
Proof.
  apply (other_operations_keep_total_orders insertion_sorter insertion_sorter
           engine_crossed (OpRunBatchAuction 1)); [discriminate|reflexivity].
Defined.
